(** * Mortgage refinance planner: the loan calculator service

    A shallow embedding of [LoanCalculatorService]
    (src/app/services/loan-calculator.service.ts) and of the older revision
    of the same service, together with the properties of the amortization
    walk, the comparison engine and the rate solvers.

    Numbers.  The TypeScript [number] values that carry money and rates are
    modelled as exact rationals [Q], compared with [==]; month counters and
    the loan length in years are integers [Z].  A division by zero leaves
    the rationals and is modelled as a missing result ([divide]).  The
    double-precision rounding of the host is looked at in one place only,
    the module [Binary64], which evaluates [calculateMonthlyPayment] on
    IEEE-754 binary64 values.

    Dates.  A date is its calendar fields, month counted from zero as
    [getMonth] does, in a single time zone; "today", which the service
    reads from the clock, is an explicit argument.  *)

From Stdlib Require Import ZArith QArith Qabs Qround Qpower Qfield Lia Lqa List Bool.
From Stdlib Require Import Floats.
Import ListNotations.

Local Open Scope Z_scope.
Local Open Scope Q_scope.

(** ** JavaScript primitives used by the service *)

(** [a < b] on numbers. *)
Definition Qltb (a b : Q) : bool := negb (Qle_bool b a).

(** [Math.max(a, b)]. *)
Definition Math_max (a b : Q) : Q := if Qle_bool a b then b else a.

(** [x || 0]: the right operand is taken when [x] is falsy, that is zero. *)
Definition or0 (x : Q) : Q := if Qeq_bool x 0 then 0 else x.

(** [Math.max] on integers (month counters). *)
Definition Math_maxZ (a b : Z) : Z := Z.max a b.

(** ** Calendar dates *)

Record Date := mkDate { year : Z; month : Z; day : Z }.

Definition isLeap (y : Z) : bool :=
  (((y mod 4 =? 0) && negb (y mod 100 =? 0)) || (y mod 400 =? 0))%Z.

Definition daysInMonth (y m : Z) : Z :=
  match m with
  | 1%Z => if isLeap y then 29%Z else 28%Z
  | 3%Z | 5%Z | 8%Z | 10%Z => 30%Z
  | _ => 31%Z
  end.

(** [d.setMonth(d.getMonth() + n)]: months carry into years, and a day
    beyond the end of the target month rolls into the next month. *)
Definition setMonthPlus (d : Date) (n : Z) : Date :=
  let t := (month d + n)%Z in
  let y := (year d + t / 12)%Z in
  let m := (t mod 12)%Z in
  if (day d <=? daysInMonth y m)%Z then mkDate y m (day d)
  else
    let m' := (m + 1)%Z in
    mkDate (y + m' / 12)%Z (m' mod 12)%Z (day d - daysInMonth y m)%Z.

(** [(today.getFullYear() - startDate.getFullYear()) * 12 +
     (today.getMonth() - startDate.getMonth())]. *)
Definition monthDiff (today start : Date) : Z :=
  ((year today - year start) * 12 + (month today - month start))%Z.

(** ** Data model (src/app/models/loan.model.ts) *)

Record LoanData := mkLoanData {
  loanAmount : Q;
  loanLengthYears : Z;
  interestRate : Q;
  startDate : Date;
  monthlyPayment : Q;
  escrow : Q;
  extraPayment : Q;
  oneTimeExtraPayments : Q;
  closingCosts : Q;
  continueExtraPayments : bool
}.

Record LoanCalculationResult := mkResult {
  totalInterestPaid : Q;
  totalAmountPaid : Q;
  totalExtraPayment : Q;
  monthsToPayout : Z;
  yearsToPayout : Q;
  payoffDate : Date;
  currentRemainingBalance : Q;
  monthsElapsed : Z
}.

(** [suggestedNewRate] is [None] when the solver's arithmetic leaves the
    finite numbers (see [divide] below). *)
Record ComparisonResult := mkComparison {
  originalLoan : LoanCalculationResult;
  newLoan : LoanCalculationResult;
  differenceInTotalPayment : Q;
  differenceinInterest : Q;
  monthlyPaymentDifference : Q;
  suggestedNewRate : option Q;
  totalCostWithClosing : Q;
  netSavings : Q;
  breakEvenMonths : Z
}.

(** ** The amortization walk of [calculateLoan] *)

Module Loop.

(** The mutable locals of [calculateLoan]. *)
Record state := mk {
  balance : Q;
  totalInterest : Q;
  totalExtraPayment : Q;
  monthCount : Z;
  currentRemainingBalance : Q;
  futureInterest : Q;
  futureExtraPayment : Q
}.

(** The constants the loop reads. *)
Record env := mkEnv {
  monthlyRate : Q;
  totalMonths : Z;
  principalAndInterest : Q;
  monthsElapsed : Z;
  extraPayment : Q;
  oneTimeExtraPayments : Q;
  continueExtraPayments : bool
}.

(** One pass through the loop body ends in [break] or falls through. *)
Inductive outcome := Break (s : state) | Next (s : state).

Definition final (o : outcome) : state :=
  match o with Break s | Next s => s end.

(** The guard of the one-time payment inside the loop. *)
Definition oneTimeDue (e : env) (mc : Z) : bool :=
  (mc =? monthsElapsed e)%Z && (0 <? monthsElapsed e)%Z
  && Qltb 0 (oneTimeExtraPayments e).

(** The balance after the one-time payment of month [mc], if one is due. *)
Definition afterOneTime (e : env) (mc : Z) (b : Q) : Q :=
  if oneTimeDue e mc then Math_max 0 (b - oneTimeExtraPayments e) else b.

Definition applyExtraPayment (e : env) (mc : Z) : bool :=
  if (monthsElapsed e =? 0)%Z then true
  else if (mc <=? monthsElapsed e)%Z then true
  else continueExtraPayments e || false.

Definition body (e : env) (s : state) : outcome :=
  let mc := (monthCount s + 1)%Z in
  let b := afterOneTime e mc (balance s) in
  if oneTimeDue e mc && Qeq_bool b 0 then
    Break (mk b (totalInterest s) (totalExtraPayment s) mc
              (currentRemainingBalance s) (futureInterest s)
              (futureExtraPayment s))
  else
    let interestPayment := b * monthlyRate e in
    let principalPayment := principalAndInterest e - interestPayment in
    let extraThisMonth :=
      if applyExtraPayment e mc then extraPayment e else 0 in
    let totalPrincipal := principalPayment + extraThisMonth in
    if Qle_bool b totalPrincipal then
      let finalInterest := b * monthlyRate e in
      let finalExtra :=
        if Qltb 0 (b - principalPayment) then b - principalPayment else 0 in
      let future := (monthsElapsed e <? mc)%Z in
      Break (mk 0
                (totalInterest s + finalInterest)
                (totalExtraPayment s + finalExtra)
                mc
                (currentRemainingBalance s)
                (if future then futureInterest s + finalInterest
                 else futureInterest s)
                (if future then futureExtraPayment s + finalExtra
                 else futureExtraPayment s))
    else
      let future := (monthsElapsed e <? mc)%Z in
      let b' := b - totalPrincipal in
      Next (mk b'
               (totalInterest s + interestPayment)
               (totalExtraPayment s + extraThisMonth)
               mc
               (if (mc =? monthsElapsed e)%Z then b'
                else currentRemainingBalance s)
               (if future then futureInterest s + interestPayment
                else futureInterest s)
               (if future then futureExtraPayment s + extraThisMonth
                else futureExtraPayment s)).

(** [balance > 0 && monthCount < totalMonths * 2]. *)
Definition guard (e : env) (s : state) : bool :=
  Qltb 0 (balance s) && (monthCount s <? totalMonths e * 2)%Z.

(** The [while] loop; [fuel] only makes the recursion structural. *)
Fixpoint run (fuel : nat) (e : env) (s : state) : state :=
  match fuel with
  | O => s
  | S fuel' =>
      if guard e s then
        match body e s with
        | Break s' => s'
        | Next s' => run fuel' e s'
        end
      else s
  end.

(** The successive values of [balance], month by month: for each pass the
    value after the one-time payment (equal to the previous value when none
    is due) followed by the value at the end of the pass. *)
Fixpoint balances (fuel : nat) (e : env) (s : state) : list Q :=
  match fuel with
  | O => []
  | S fuel' =>
      if guard e s then
        let mid := afterOneTime e (monthCount s + 1)%Z (balance s) in
        match body e s with
        | Break s' => [mid; balance s']
        | Next s' => mid :: balance s' :: balances fuel' e s'
        end
      else []
  end.

(** The interest term computed in each pass that reaches it. *)
Fixpoint interests (fuel : nat) (e : env) (s : state) : list Q :=
  match fuel with
  | O => []
  | S fuel' =>
      if guard e s then
        let mc := (monthCount s + 1)%Z in
        let b := afterOneTime e mc (balance s) in
        match body e s with
        | Break s' =>
            if oneTimeDue e mc && Qeq_bool b 0 then []
            else [b * monthlyRate e]
        | Next s' => (b * monthlyRate e) :: interests fuel' e s'
        end
      else []
  end.

(** Two states (environments, outcomes) that agree up to the representation
    of their fractions. *)
Definition equiv (s t : state) : Prop :=
  balance s == balance t /\
  totalInterest s == totalInterest t /\
  totalExtraPayment s == totalExtraPayment t /\
  monthCount s = monthCount t /\
  currentRemainingBalance s == currentRemainingBalance t /\
  futureInterest s == futureInterest t /\
  futureExtraPayment s == futureExtraPayment t.

Definition envEquiv (e f : env) : Prop :=
  monthlyRate e == monthlyRate f /\
  totalMonths e = totalMonths f /\
  principalAndInterest e == principalAndInterest f /\
  monthsElapsed e = monthsElapsed f /\
  extraPayment e == extraPayment f /\
  oneTimeExtraPayments e == oneTimeExtraPayments f /\
  continueExtraPayments e = continueExtraPayments f.

Definition outcomeEquiv (o p : outcome) : Prop :=
  match o, p with
  | Break s, Break t | Next s, Next t => equiv s t
  | _, _ => False
  end.

(** The same state with every fraction in lowest terms. *)
Definition norm (s : state) : state :=
  mk (Qred (balance s)) (Qred (totalInterest s)) (Qred (totalExtraPayment s))
     (monthCount s) (Qred (currentRemainingBalance s))
     (Qred (futureInterest s)) (Qred (futureExtraPayment s)).

(** The loop with the state reduced after every pass: an evaluator for
    concrete loans, equivalent to [run] (lemma [run_runRed]). *)
Fixpoint runRed (fuel : nat) (e : env) (s : state) : state :=
  match fuel with
  | O => s
  | S fuel' =>
      if guard e s then
        match body e s with
        | Break s' => norm s'
        | Next s' => runRed fuel' e (norm s')
        end
      else s
  end.

(** Two runs compared, the second with the larger recurring extra payment.
    While both are in the loop the second is never behind: same month,
    balance, total interest and future interest no larger. *)
Definition ahead (s2 s1 : state) : Prop :=
  monthCount s2 = monthCount s1 /\
  balance s2 <= balance s1 /\
  totalInterest s2 <= totalInterest s1 /\
  futureInterest s2 <= futureInterest s1.

(** When both have left the loop the second has not run longer nor
    accrued more interest. *)
Definition noLater (s2 s1 : state) : Prop :=
  (monthCount s2 <= monthCount s1)%Z /\
  totalInterest s2 <= totalInterest s1 /\
  futureInterest s2 <= futureInterest s1.

End Loop.

(** [Math.max(0, monthDiff)]: the months elapsed from the start date. *)
Definition elapsed (loan : LoanData) (today : Date) : Z :=
  Math_maxZ 0 (monthDiff today (startDate loan)).

Definition envOf (loan : LoanData) (today : Date) : Loop.env :=
  Loop.mkEnv (interestRate loan / 100 / 12)
             (loanLengthYears loan * 12)%Z
             (monthlyPayment loan - or0 (escrow loan))
             (elapsed loan today)
             (or0 (extraPayment loan))
             (or0 (oneTimeExtraPayments loan))
             (continueExtraPayments loan).

(** The locals on entry to the loop, the balance being [b]. *)
Definition initial (loan : LoanData) (b : Q) : Loop.state :=
  Loop.mk b 0 0 0%Z (loanAmount loan) 0 0.

(** The iteration budget: the loop counts [monthCount] up from zero to at
    most [totalMonths * 2]. *)
Definition cap (loan : LoanData) : nat := Z.to_nat (loanLengthYears loan * 12 * 2).

(** The statements after the loop. *)
Definition report (loan : LoanData) (me : Z) (s : Loop.state)
  : LoanCalculationResult :=
  let notStarted := (me <=? 0)%Z in
  let currentRemainingBalance :=
    if notStarted then loanAmount loan else Loop.currentRemainingBalance s in
  let futureInterest :=
    if notStarted then Loop.totalInterest s else Loop.futureInterest s in
  let futureExtraPayment :=
    if notStarted then Loop.totalExtraPayment s else Loop.futureExtraPayment s in
  let payoffDate := setMonthPlus (startDate loan) (Loop.monthCount s) in
  let remainingMonths :=
    if (0 <? me)%Z then Math_maxZ 0 (Loop.monthCount s - me)
    else Loop.monthCount s in
  let relevantInterest :=
    if (0 <? me)%Z then futureInterest else Loop.totalInterest s in
  let relevantExtraPayment :=
    if (0 <? me)%Z then futureExtraPayment else Loop.totalExtraPayment s in
  let relevantTotalPaid :=
    if (0 <? me)%Z then currentRemainingBalance + futureInterest
    else loanAmount loan + Loop.totalInterest s in
  mkResult relevantInterest relevantTotalPaid relevantExtraPayment
           remainingMonths (inject_Z remainingMonths / 12) payoffDate
           currentRemainingBalance me.

(** The test of the early one-time payment: [monthsElapsed === 0 &&
    oneTimeExtraPayments > 0]. *)
Definition early (loan : LoanData) (today : Date) : bool :=
  (elapsed loan today =? 0)%Z && Qltb 0 (or0 (oneTimeExtraPayments loan)).

(** The balance on entry to the loop. *)
Definition openingBalance (loan : LoanData) (today : Date) : Q :=
  if early loan today
  then Math_max 0 (loanAmount loan - or0 (oneTimeExtraPayments loan))
  else loanAmount loan.

(** [calculateLoan], the loop being [loop]. *)
Definition calculateLoanWith
  (loop : nat -> Loop.env -> Loop.state -> Loop.state)
  (loan : LoanData) (today : Date) : LoanCalculationResult :=
  let e := envOf loan today in
  let balance := openingBalance loan today in
  if early loan today && Qeq_bool balance 0 then
    mkResult 0 (loanAmount loan) (or0 (oneTimeExtraPayments loan)) 0%Z 0
             (startDate loan) 0 0%Z
  else
    report loan (elapsed loan today) (loop (cap loan) e (initial loan balance)).

Definition calculateLoan : LoanData -> Date -> LoanCalculationResult :=
  calculateLoanWith Loop.run.

(** The evaluator for concrete loans (see [Loop.runRed]). *)
Definition calculateLoanRed : LoanData -> Date -> LoanCalculationResult :=
  calculateLoanWith Loop.runRed.

(** The locals when the loop of [calculateLoan] is left. *)
Definition finalState (loan : LoanData) (today : Date) : Loop.state :=
  Loop.run (cap loan) (envOf loan today)
           (initial loan (openingBalance loan today)).

(** Results that agree up to the representation of their fractions. *)
Definition resultEquiv (r r' : LoanCalculationResult) : Prop :=
  totalInterestPaid r == totalInterestPaid r' /\
  totalAmountPaid r == totalAmountPaid r' /\
  totalExtraPayment r == totalExtraPayment r' /\
  monthsToPayout r = monthsToPayout r' /\
  yearsToPayout r == yearsToPayout r' /\
  payoffDate r = payoffDate r' /\
  currentRemainingBalance r == currentRemainingBalance r' /\
  monthsElapsed r = monthsElapsed r'.

(** The same loan with another recurring extra payment. *)
Definition withExtraPayment (loan : LoanData) (x : Q) : LoanData :=
  mkLoanData (loanAmount loan) (loanLengthYears loan) (interestRate loan)
             (startDate loan) (monthlyPayment loan) (escrow loan) x
             (oneTimeExtraPayments loan) (closingCosts loan)
             (continueExtraPayments loan).

(** The successive values of the running balance in one call: the loan
    amount, the balance on entry to the loop, then the values the loop gives
    it month by month. *)
Definition balanceHistory (loan : LoanData) (today : Date) : list Q :=
  loanAmount loan :: openingBalance loan today ::
  Loop.balances (cap loan) (envOf loan today)
                (initial loan (openingBalance loan today)).

(** The interest terms the loop computes, month by month. *)
Definition interestHistory (loan : LoanData) (today : Date) : list Q :=
  Loop.interests (cap loan) (envOf loan today)
                 (initial loan (openingBalance loan today)).

(** Each value is at most the one before it. *)
Fixpoint nonIncreasing (l : list Q) : Prop :=
  match l with
  | a :: (b :: _) as rest => b <= a /\ nonIncreasing rest
  | _ => True
  end.

(** The loop was left at the safety cap with the balance still positive. *)
Definition doesNotAmortize (loan : LoanData) (today : Date) : Prop :=
  0 < Loop.balance (finalState loan today).

(** The loop was left with the balance at zero. *)
Definition paysOff (loan : LoanData) (today : Date) : Prop :=
  Loop.balance (finalState loan today) == 0.

(** ** The older revision of [calculateLoan]

    The revision before one-time payments moved into the loop and before
    [continueExtraPayments] and the remaining-months report were added. *)

Module Old.

Definition body (e : Loop.env) (s : Loop.state) : Loop.outcome :=
  let mc := (Loop.monthCount s + 1)%Z in
  let b := Loop.balance s in
  let interestPayment := b * Loop.monthlyRate e in
  let principalPayment := Loop.principalAndInterest e - interestPayment in
  let extraThisMonth := Loop.extraPayment e in
  let totalPrincipal := principalPayment + extraThisMonth in
  let future := (Loop.monthsElapsed e <? mc)%Z in
  if Qle_bool b totalPrincipal then
    let finalInterest := b * Loop.monthlyRate e in
    let finalExtra :=
      if Qltb 0 (b - principalPayment) then b - principalPayment else 0 in
    Loop.Break (Loop.mk 0
                  (Loop.totalInterest s + finalInterest)
                  (Loop.totalExtraPayment s + finalExtra)
                  mc
                  (Loop.currentRemainingBalance s)
                  (if future then Loop.futureInterest s + finalInterest
                   else Loop.futureInterest s)
                  (if future then Loop.futureExtraPayment s + finalExtra
                   else Loop.futureExtraPayment s))
  else
    let b' := b - totalPrincipal in
    Loop.Next (Loop.mk b'
                 (Loop.totalInterest s + interestPayment)
                 (Loop.totalExtraPayment s + extraThisMonth)
                 mc
                 (if (mc =? Loop.monthsElapsed e)%Z then b'
                  else Loop.currentRemainingBalance s)
                 (if future then Loop.futureInterest s + interestPayment
                  else Loop.futureInterest s)
                 (if future then Loop.futureExtraPayment s + extraThisMonth
                  else Loop.futureExtraPayment s)).

Fixpoint run (fuel : nat) (e : Loop.env) (s : Loop.state) : Loop.state :=
  match fuel with
  | O => s
  | S fuel' =>
      if Loop.guard e s then
        match body e s with
        | Loop.Break s' => s'
        | Loop.Next s' => run fuel' e s'
        end
      else s
  end.

Definition envOf (loan : LoanData) (today : Date) : Loop.env :=
  Loop.mkEnv (interestRate loan / 100 / 12)
             (loanLengthYears loan * 12)%Z
             (monthlyPayment loan - escrow loan)
             (elapsed loan today)
             (extraPayment loan)
             (oneTimeExtraPayments loan)
             false.

Definition report (loan : LoanData) (me : Z) (s : Loop.state)
  : LoanCalculationResult :=
  let notStarted := (me <=? 0)%Z in
  let crb0 :=
    if notStarted then loanAmount loan else Loop.currentRemainingBalance s in
  let futureInterest :=
    if notStarted then Loop.totalInterest s else Loop.futureInterest s in
  let futureExtraPayment :=
    if notStarted then Loop.totalExtraPayment s else Loop.futureExtraPayment s in
  let currentRemainingBalance :=
    Math_max 0 (crb0 - oneTimeExtraPayments loan) in
  let payoffDate := setMonthPlus (startDate loan) (Loop.monthCount s) in
  let relevantInterest :=
    if (0 <? me)%Z then futureInterest else Loop.totalInterest s in
  let relevantExtraPayment :=
    if (0 <? me)%Z then futureExtraPayment else Loop.totalExtraPayment s in
  let relevantTotalPaid :=
    if (0 <? me)%Z then currentRemainingBalance + futureInterest
    else loanAmount loan + Loop.totalInterest s in
  mkResult relevantInterest relevantTotalPaid relevantExtraPayment
           (Loop.monthCount s) (inject_Z (Loop.monthCount s) / 12) payoffDate
           currentRemainingBalance me.

Definition calculateLoan (loan : LoanData) (today : Date)
  : LoanCalculationResult :=
  let e := envOf loan today in
  report loan (Loop.monthsElapsed e)
         (run (cap loan) e (initial loan (loanAmount loan))).

End Old.

(** ** Payment formula and rate solvers

    A division by zero, or a zero base raised to a negative power, leaves
    the finite numbers (JavaScript yields an infinity or NaN): such a result
    is [None]. *)

Definition divide (a b : Q) : option Q :=
  if Qeq_bool b 0 then None else Some (a / b).

Definition Math_pow (x : Q) (n : Z) : option Q :=
  if Qeq_bool x 0 && (n <? 0)%Z then None else Some (x ^ n).

Definition bind {A B : Type} (m : option A) (f : A -> option B) : option B :=
  match m with Some a => f a | None => None end.

Notation "x <- m ;; k" := (bind m (fun x => k))
  (at level 61, m at next level, right associativity).

(** [P * (r * pow(1 + r, n)) / (pow(1 + r, n) - 1)]. *)
Definition levelPayment (loanAmount monthlyRate : Q) (totalMonths : Z)
  : option Q :=
  p1 <- Math_pow (1 + monthlyRate) totalMonths ;;
  p2 <- Math_pow (1 + monthlyRate) totalMonths ;;
  divide (loanAmount * (monthlyRate * p1)) (p2 - 1).

Definition calculateMonthlyPayment
  (loanAmount : Q) (loanLengthYears : Z) (interestRate : Q) : option Q :=
  let monthlyRate := interestRate / 100 / 12 in
  let totalMonths := (loanLengthYears * 12)%Z in
  if Qeq_bool monthlyRate 0 then divide loanAmount (inject_Z totalMonths)
  else levelPayment loanAmount monthlyRate totalMonths.

(** The loop of [calculateSuggestedRate]; [remaining] is
    [maxIterations - iterations]. *)
Fixpoint suggestedRateLoop (remaining : nat) (loanAmount : Q) (totalMonths : Z)
  (targetMonthlyPayment low high mid : Q) : option Q :=
  match remaining with
  | O => Some mid
  | S remaining' =>
      if Qltb (1 # 10000) (high - low) then
        let monthlyRate := mid / 100 / 12 in
        calculatedPayment <-
          (if Qeq_bool monthlyRate 0
           then divide loanAmount (inject_Z totalMonths)
           else levelPayment loanAmount monthlyRate totalMonths) ;;
        if Qltb (Qabs (calculatedPayment - targetMonthlyPayment)) (1 # 100)
        then Some mid
        else
          let low' :=
            if Qltb calculatedPayment targetMonthlyPayment then mid else low in
          let high' :=
            if Qltb calculatedPayment targetMonthlyPayment then high else mid in
          suggestedRateLoop remaining' loanAmount totalMonths
            targetMonthlyPayment low' high' ((low' + high') / 2)
      else Some mid
  end.

Definition calculateSuggestedRate
  (loanAmount : Q) (loanLengthYears : Z) (targetMonthlyPayment : Q)
  : option Q :=
  let totalMonths := (loanLengthYears * 12)%Z in
  floor <- divide loanAmount (inject_Z totalMonths) ;;
  if Qle_bool targetMonthlyPayment floor then Some 0
  else
    suggestedRateLoop 100 loanAmount totalMonths targetMonthlyPayment
      0 20 ((0 + 20) / 2).

(** The loop of [calculateTargetSavingsRate]. *)
Fixpoint targetSavingsLoop (remaining : nat) (loanAmount : Q) (totalMonths : Z)
  (targetTotalInterest low high : Q) : option Q :=
  match remaining with
  | O => Some ((low + high) / 2)
  | S remaining' =>
      if Qltb (1 # 10000) (high - low) then
        let mid := (low + high) / 2 in
        let monthlyRate := mid / 100 / 12 in
        totalInterest <-
          (if Qeq_bool monthlyRate 0 then Some 0
           else
             monthlyPayment <- levelPayment loanAmount monthlyRate totalMonths ;;
             Some (monthlyPayment * inject_Z totalMonths - loanAmount)) ;;
        if Qltb (Qabs (totalInterest - targetTotalInterest)) 10
        then Some mid
        else if Qltb totalInterest targetTotalInterest
        then targetSavingsLoop remaining' loanAmount totalMonths
               targetTotalInterest mid high
        else targetSavingsLoop remaining' loanAmount totalMonths
               targetTotalInterest low mid
      else Some ((low + high) / 2)
  end.

Definition calculateTargetSavingsRate
  (loanAmount : Q) (loanLengthYears : Z) (targetTotalCost : Q) : option Q :=
  let totalMonths := (loanLengthYears * 12)%Z in
  if Qltb targetTotalCost loanAmount then Some 0
  else
    let targetTotalInterest := targetTotalCost - loanAmount in
    targetSavingsLoop 100 loanAmount totalMonths targetTotalInterest 0 20.

(** ** The comparison engine *)

(** [Math.ceil] of a number, as the integer month count it yields. *)
Definition Math_ceil (x : Q) : Z := Qceiling x.

Definition breakEven (closingCosts monthlyPaymentDifference : Q) : Z :=
  if Qltb 0 closingCosts && Qltb monthlyPaymentDifference 0 then
    let monthlySavings := Qabs monthlyPaymentDifference in
    if Qltb 0 monthlySavings then Math_ceil (closingCosts / monthlySavings)
    else 0%Z
  else 0%Z.

(** The break-even rule in the words of the specification:
    [ceil(closingCosts / |paymentDelta|)] when [closingCosts > 0] and
    [paymentDelta < 0], otherwise 0. *)
Definition breakEvenSpec (closingCosts paymentDelta : Q) : Z :=
  if Qlt_le_dec 0 closingCosts then
    if Qlt_le_dec paymentDelta 0
    then Qceiling (closingCosts / Qabs paymentDelta)
    else 0%Z
  else 0%Z.

Definition compareLoan (original new : LoanData) (today : Date)
  : ComparisonResult :=
  let originalResult := calculateLoan original today in
  let newResult := calculateLoan new today in
  let differenceInTotalPayment :=
    totalAmountPaid newResult - totalAmountPaid originalResult in
  let differenceinInterest :=
    totalInterestPaid newResult - totalInterestPaid originalResult in
  let monthlyPaymentDifference :=
    monthlyPayment new - monthlyPayment original in
  let closingCosts := or0 (closingCosts new) in
  let totalCostWithClosing := totalAmountPaid newResult + closingCosts in
  let netSavings := totalAmountPaid originalResult - totalCostWithClosing in
  let breakEvenMonths := breakEven closingCosts monthlyPaymentDifference in
  let targetInterestSavings := totalInterestPaid originalResult * (20 # 100) in
  let targetTotalInterest :=
    totalInterestPaid originalResult - targetInterestSavings in
  let targetTotalCost := loanAmount new + targetTotalInterest in
  let suggestedNewRate :=
    calculateTargetSavingsRate (loanAmount new) (loanLengthYears new)
      targetTotalCost in
  mkComparison originalResult newResult differenceInTotalPayment
    differenceinInterest monthlyPaymentDifference suggestedNewRate
    totalCostWithClosing netSavings breakEvenMonths.

(** ** Powers and geometric sums

    [powN x k] is [x^k] and [geomN x k] is [1 + x + ... + x^(k-1)]; with
    [x = 1 + monthlyRate] and [k = totalMonths] the level payment is
    [P * powN x k / geomN x k], at a zero rate too. *)

Fixpoint powN (x : Q) (k : nat) : Q :=
  match k with
  | O => 1
  | S k' => x * powN x k'
  end.

Fixpoint geomN (x : Q) (k : nat) : Q :=
  match k with
  | O => 0
  | S k' => geomN x k' + powN x k'
  end.

(** The number of monthly payments of a loan of [term] years. *)
Definition monthsN (term : Z) : nat := Z.to_nat (term * 12).

(** ** The payment utility on IEEE-754 binary64

    The same function on the doubles the host computes with.  [Math.pow] is
    implementation-approximated, so it is an argument of the model; the
    branch taken at a zero rate does not call it. *)

Module Binary64.

Local Open Scope float_scope.

Definition calculateMonthlyPayment (pow : float -> float -> float)
  (loanAmount loanLengthYears interestRate : float) : float :=
  let monthlyRate := interestRate / 100 / 12 in
  let totalMonths := loanLengthYears * 12 in
  if monthlyRate =? 0 then loanAmount / totalMonths
  else
    loanAmount * (monthlyRate * pow (1 + monthlyRate) totalMonths)
    / (pow (1 + monthlyRate) totalMonths - 1).

(** A [Math.pow] for evaluating the branch that never consults it. *)
Definition unusedPow : float -> float -> float := fun _ _ => nan.

(** [payment * 12 * term >= principal], as a test on doubles. *)
Definition coversPrincipal (pow : float -> float -> float)
  (loanAmount loanLengthYears interestRate : float) : bool :=
  loanAmount <=?
  calculateMonthlyPayment pow loanAmount loanLengthYears interestRate
  * 12 * loanLengthYears.

End Binary64.

(** ** Sample loans *)

(** A one-year loan that started in January 2000, seen in November 2026. *)
Definition longRunningLoan : LoanData :=
  mkLoanData 1200 1 0 (mkDate 2000 0 1) 100 0 0 0 0 false.

Definition lumpSumLoan : LoanData :=
  mkLoanData 250000 30 (65 # 10) (mkDate 2026 10 1) 2000 400 0 250000 0 false.

Definition november2026 : Date := mkDate 2026 10 2.

(** Zero-rate, one-year loans of 2400 opened today: 50 a month leaves 1200
    owing after the 24 months the cap allows; 100 a month pays the loan off
    in month 24. *)
Definition slowPayer : LoanData :=
  mkLoanData 2400 1 0 november2026 50 0 0 0 0 false.

Definition steadyPayer : LoanData :=
  mkLoanData 2400 1 0 november2026 100 0 0 0 0 false.

(** A loan whose payment of 500 does not cover the first month's interest
    of 1000 (100000 at 12% a year). *)
Definition underwaterLoan : LoanData :=
  mkLoanData 100000 1 12 november2026 500 0 0 0 0 false.

Definition coveredLoan : LoanData :=
  mkLoanData 100000 1 12 november2026 1500 0 0 0 0 false.

Definition interestFreeLoan : LoanData :=
  mkLoanData 24000 2 0 november2026 1000 0 0 0 0 false.

(** The environment of the older revision, read by the current loop. *)
Definition oldEnvContinued (loan : LoanData) (today : Date) : Loop.env :=
  Loop.mkEnv (interestRate loan / 100 / 12)
             (loanLengthYears loan * 12)%Z
             (monthlyPayment loan - escrow loan)
             (elapsed loan today)
             (extraPayment loan)
             (oneTimeExtraPayments loan)
             true.

(** A zero-rate loan of 12000 repaid at 1000 a month, opened in May 2026. *)
Definition startedInMay : LoanData :=
  mkLoanData 12000 1 0 (mkDate 2026 4 2) 1000 0 0 0 0 true.

(** A loan of 12000 at 12% a year repaid at 1100 a month, with a recurring
    extra payment of 100. *)
Definition acceleratedLoan : LoanData :=
  mkLoanData 12000 1 12 november2026 1100 0 100 0 0 false.

(** A mortgage paid at 2000 a month and an offer to refinance it at 1850 a
    month for 5000 in closing costs. *)
Definition currentMortgage : LoanData :=
  mkLoanData 300000 30 (65 # 10) november2026 2000 400 0 0 0 false.

Definition refinanceOffer : LoanData :=
  mkLoanData 300000 30 (55 # 10) november2026 1850 400 0 0 5000 false.
(** ** The standard amortization schedule

    [scheduledBalance P x M k] is what is owed after [k] payments of [M] on
    a principal [P] that grows by the factor [x = 1 + monthlyRate] a month;
    [gap x k n] is [x^k (1 + ... + x^(n-1)) - x^n (1 + ... + x^(k-1))], the
    quantity whose sign says whether payment [k] of [n] leaves a balance. *)

Fixpoint scheduledBalance (P x M : Q) (k : nat) : Q :=
  match k with
  | O => P
  | S k' => scheduledBalance P x M k' * x - M
  end.

Definition gap (x : Q) (k n : nat) : Q :=
  powN x k * geomN x n - powN x n * geomN x k.

(** ** The component that drives the service (src/app/app.component.ts) *)

From Stdlib Require Import String DecimalString.

(** [Math.floor] and [Math.round] (halves round up), as whole numbers. *)
Definition Math_floor (x : Q) : Z := Qfloor x.

Definition Math_round (x : Q) : Z := Qfloor (x + (1 # 2)).

(** A whole number inside a template literal. *)
Definition showZ (z : Z) : string := NilZero.string_of_int (Z.to_int z).

Definition formatYears (years : Q) : string :=
  let wholeYears := Math_floor years in
  let months := Math_round ((years - inject_Z wholeYears) * 12) in
  (showZ wholeYears ++ " years, " ++ showZ months ++ " months")%string.

(** [x] in a condition: a number is truthy unless it is zero. *)
Definition truthy (x : Q) : bool := negb (Qeq_bool x 0).

(** [patchValue({ monthlyPayment })] and [patchValue({ loanAmount })] on a
    form whose value is a [LoanData]. *)
Definition patchMonthlyPayment (form : LoanData) (v : Q) : LoanData :=
  mkLoanData (loanAmount form) (loanLengthYears form) (interestRate form)
             (startDate form) v (escrow form) (extraPayment form)
             (oneTimeExtraPayments form) (closingCosts form)
             (continueExtraPayments form).

Definition patchLoanAmount (form : LoanData) (v : Q) : LoanData :=
  mkLoanData v (loanLengthYears form) (interestRate form)
             (startDate form) (monthlyPayment form) (escrow form)
             (extraPayment form) (oneTimeExtraPayments form)
             (closingCosts form) (continueExtraPayments form).

(** [autoCalculatePayment]: the form after the call and the
    principal-and-interest figure on display ([shown] before the call).
    [None] when the payment computed is not a finite number. *)
Definition autoCalculatePayment (form : LoanData) (shown : Q)
  : option (LoanData * Q) :=
  let loanAmount := loanAmount form in
  let loanLengthYears := loanLengthYears form in
  let interestRate := interestRate form in
  let escrow := or0 (escrow form) in
  if truthy loanAmount && negb (loanLengthYears =? 0)%Z then
    principalAndInterest <-
      calculateMonthlyPayment loanAmount loanLengthYears interestRate ;;
    let totalMonthlyPayment := principalAndInterest + escrow in
    Some (patchMonthlyPayment form
            (inject_Z (Math_round (totalMonthlyPayment * 100)) / 100),
          principalAndInterest)
  else Some (form, shown).

(** The validators of the two forms: [Validators.min] on every number
    (the required fields always hold a number here). *)
Definition formValid (form : LoanData) : bool :=
  Qle_bool 0 (loanAmount form) && (1 <=? loanLengthYears form)%Z
  && Qle_bool 0 (interestRate form) && Qle_bool 0 (monthlyPayment form)
  && Qle_bool 0 (escrow form) && Qle_bool 0 (extraPayment form)
  && Qle_bool 0 (oneTimeExtraPayments form) && Qle_bool 0 (closingCosts form).




(** [updateNewLoanAmount]: the new-loan form and its principal-and-interest
    display after the call. *)
Definition updateNewLoanAmount (originalForm newForm : LoanData) (shown : Q)
  (today : Date) : option (LoanData * Q) :=
  if formValid originalForm then
    let originalResult := calculateLoan originalForm today in
    autoCalculatePayment
      (patchLoanAmount newForm
         (inject_Z (Math_round (currentRemainingBalance originalResult))))
      shown
  else Some (newForm, shown).

(** The same loan with another one-time payment. *)
Definition withOneTimePayment (loan : LoanData) (x : Q) : LoanData :=
  mkLoanData (loanAmount loan) (loanLengthYears loan) (interestRate loan)
             (startDate loan) (monthlyPayment loan) (escrow loan)
             (extraPayment loan) x (closingCosts loan)
             (continueExtraPayments loan).


(** * Properties *)

(** ** Comparisons and primitives *)

Lemma Qltb_true (a b : Q) : Qltb a b = true <-> a < b.
Proof.
  unfold Qltb. rewrite negb_true_iff.
  destruct (Qle_bool b a) eqn:E.
  - apply Qle_bool_iff in E. split; [discriminate | intro; lra].
  - split; [intros _ | reflexivity].
    apply Qnot_le_lt. intro H. apply Qle_bool_iff in H. congruence.
Qed.

Lemma Qltb_false (a b : Q) : Qltb a b = false <-> b <= a.
Proof.
  unfold Qltb. rewrite negb_false_iff. apply Qle_bool_iff.
Qed.

Lemma Qle_bool_false (a b : Q) : Qle_bool a b = false <-> b < a.
Proof.
  rewrite <- Qltb_true. unfold Qltb. rewrite negb_true_iff. reflexivity.
Qed.

Lemma Qeq_bool_false (a b : Q) : Qeq_bool a b = false <-> ~ a == b.
Proof.
  split.
  - intros E H. apply Qeq_bool_iff in H. congruence.
  - intro H. destruct (Qeq_bool a b) eqn:E; [|reflexivity].
    apply Qeq_bool_iff in E. contradiction.
Qed.

#[export] Instance Qltb_comp : Proper (Qeq ==> Qeq ==> eq) Qltb.
Proof. intros a a' Ha b b' Hb. unfold Qltb. now rewrite Ha, Hb. Qed.

#[export] Instance Math_max_comp : Proper (Qeq ==> Qeq ==> Qeq) Math_max.
Proof.
  intros a a' Ha b b' Hb. unfold Math_max. rewrite Ha, Hb.
  now destruct (Qle_bool a' b').
Qed.

#[export] Instance or0_comp : Proper (Qeq ==> Qeq) or0.
Proof.
  intros a a' Ha. unfold or0. rewrite Ha. now destruct (Qeq_bool a' 0).
Qed.

Lemma or0_eq (x : Q) : or0 x == x.
Proof.
  unfold or0. destruct (Qeq_bool x 0) eqn:E; [|reflexivity].
  apply Qeq_bool_iff in E. now symmetry.
Qed.

Lemma Math_max_spec (a b : Q) :
  (a <= b /\ Math_max a b = b) \/ (b < a /\ Math_max a b = a).
Proof.
  unfold Math_max. destruct (Qle_bool a b) eqn:E.
  - left. split; [now apply Qle_bool_iff | reflexivity].
  - right. split; [now apply Qle_bool_false | reflexivity].
Qed.

Lemma Math_max_0_nonneg (x : Q) : 0 <= Math_max 0 x.
Proof. destruct (Math_max_spec 0 x) as [[H ->] | [H ->]]; lra. Qed.

Lemma monthlyRate_scaled (x : Q) : x / 100 / 12 == x * (1 # 1200).
Proof. field. Qed.

Lemma monthlyRate_nonneg (x : Q) : 0 <= x -> 0 <= x / 100 / 12.
Proof. intro H. rewrite monthlyRate_scaled. lra. Qed.

(** ** The loop respects equality of rationals *)

Module LoopFacts.
Import Loop.

Lemma equiv_refl s : equiv s s.
Proof. repeat split; reflexivity. Qed.

Lemma envEquiv_refl e : envEquiv e e.
Proof. repeat split; reflexivity. Qed.

Lemma equiv_sym s t : equiv s t -> equiv t s.
Proof. intros (?&?&?&?&?&?&?). repeat split; now symmetry. Qed.

Lemma equiv_trans s t u : equiv s t -> equiv t u -> equiv s u.
Proof.
  intros (?&?&?&?&?&?&?) (?&?&?&?&?&?&?).
  repeat split; etransitivity; eassumption.
Qed.

Lemma guard_equiv e f s t :
  envEquiv e f -> equiv s t -> guard e s = guard f t.
Proof.
  intros (_&Hm&_) (Hb&_&_&Hc&_). unfold guard.
  now rewrite Hb, Hc, Hm.
Qed.

Lemma oneTimeDue_equiv e f mc :
  envEquiv e f -> oneTimeDue e mc = oneTimeDue f mc.
Proof.
  intros (_&_&_&Hme&_&Ho&_). unfold oneTimeDue. now rewrite Hme, Ho.
Qed.

Lemma applyExtraPayment_equiv e f mc :
  envEquiv e f -> applyExtraPayment e mc = applyExtraPayment f mc.
Proof.
  intros (_&_&_&Hme&_&_&Hc). unfold applyExtraPayment. now rewrite Hme, Hc.
Qed.

Lemma afterOneTime_equiv e f mc b c :
  envEquiv e f -> b == c -> afterOneTime e mc b == afterOneTime f mc c.
Proof.
  intros He Hb. unfold afterOneTime.
  rewrite (oneTimeDue_equiv e f mc He).
  destruct He as (_&_&_&_&_&Ho&_).
  destruct (oneTimeDue f mc); [now rewrite Hb, Ho | exact Hb].
Qed.

Lemma body_equiv e f s t :
  envEquiv e f -> equiv s t -> outcomeEquiv (body e s) (body f t).
Proof.
  intros He Hs.
  pose proof (oneTimeDue_equiv e f (monthCount t + 1) He) as Hd.
  pose proof (applyExtraPayment_equiv e f (monthCount t + 1) He) as Ha.
  destruct Hs as (Hb&Hti&Hte&Hc&Hcrb&Hfi&Hfe).
  pose proof (afterOneTime_equiv e f (monthCount t + 1) _ _ He Hb) as Hb1.
  destruct He as (Hr&Hm&Hpi&Hme&Hx&Ho&Hcont).
  unfold body. rewrite Hc, Hd, Hme.
  set (b := afterOneTime e (monthCount t + 1) (balance s)) in *.
  set (c := afterOneTime f (monthCount t + 1) (balance t)) in *.
  rewrite Hb1.
  destruct (oneTimeDue f (monthCount t + 1) && Qeq_bool c 0).
  { simpl. repeat split; simpl; assumption. }
  rewrite Ha.
  set (xe := if applyExtraPayment f (monthCount t + 1) then extraPayment e else 0).
  set (xf := if applyExtraPayment f (monthCount t + 1) then extraPayment f else 0).
  assert (Hxe : xe == xf).
  { unfold xe, xf. destruct (applyExtraPayment f _); [exact Hx | reflexivity]. }
  assert (Hle : Qle_bool b (principalAndInterest e - b * monthlyRate e + xe)
               = Qle_bool c (principalAndInterest f - c * monthlyRate f + xf))
    by now rewrite Hb1, Hpi, Hr, Hxe.
  assert (Hlt : Qltb 0 (b - (principalAndInterest e - b * monthlyRate e))
               = Qltb 0 (c - (principalAndInterest f - c * monthlyRate f)))
    by now rewrite Hb1, Hpi, Hr.
  rewrite Hle, Hlt.
  destruct (Qle_bool c (principalAndInterest f - c * monthlyRate f + xf));
    destruct (Qltb 0 (c - (principalAndInterest f - c * monthlyRate f)));
    destruct (monthCount t + 1 =? monthsElapsed f)%Z;
    destruct (monthsElapsed f <? monthCount t + 1)%Z;
    repeat split; simpl;
    rewrite ?Hb1, ?Hti, ?Hte, ?Hfi, ?Hfe, ?Hpi, ?Hr, ?Hxe;
    try reflexivity; try assumption.
Qed.

Lemma run_equiv fuel : forall e f s t,
  envEquiv e f -> equiv s t -> equiv (run fuel e s) (run fuel f t).
Proof.
  induction fuel as [|n IH]; intros e f s t He Hs; simpl; [exact Hs|].
  rewrite (guard_equiv e f s t He Hs).
  destruct (guard f t); [|exact Hs].
  pose proof (body_equiv e f s t He Hs) as Hb.
  destruct (body e s), (body f t); simpl in Hb; try contradiction; auto.
Qed.

Lemma norm_equiv s : equiv (norm s) s.
Proof. unfold norm. repeat split; simpl; try apply Qred_correct. Qed.

Lemma run_runRed fuel : forall e s t,
  equiv s t -> equiv (run fuel e s) (runRed fuel e t).
Proof.
  induction fuel as [|n IH]; intros e s t Hs; simpl; [exact Hs|].
  rewrite (guard_equiv e e s t (envEquiv_refl e) Hs).
  destruct (guard e t); [|exact Hs].
  pose proof (body_equiv e e s t (envEquiv_refl e) Hs) as Hb.
  destruct (body e s) as [s'|s'], (body e t) as [t'|t']; simpl in Hb;
    try contradiction.
  - eapply equiv_trans; [exact Hb | apply equiv_sym, norm_equiv].
  - apply IH. eapply equiv_trans; [exact Hb | apply equiv_sym, norm_equiv].
Qed.

(** *** What one pass does to the month counter and the balance *)

Lemma body_monthCount e s :
  monthCount (final (body e s)) = (monthCount s + 1)%Z.
Proof.
  unfold body.
  destruct (oneTimeDue e _ && Qeq_bool _ 0); [reflexivity|].
  destruct (Qle_bool _ _); reflexivity.
Qed.

Lemma body_break_balance e s s' : body e s = Break s' -> balance s' == 0.
Proof.
  unfold body.
  destruct (oneTimeDue e _ && Qeq_bool _ 0) eqn:E.
  - intros [= <-]. simpl. apply andb_true_iff in E as [_ E].
    now apply Qeq_bool_iff in E.
  - destruct (Qle_bool _ _); [intros [= <-]; reflexivity | discriminate].
Qed.

(** When the loop is left, either the balance is zero or negative, or the
    month counter has reached the cap: the fuel never runs out first. *)
Lemma run_exit fuel : forall e s,
  (totalMonths e * 2 <= monthCount s + Z.of_nat fuel)%Z ->
  balance (run fuel e s) <= 0 \/
  (totalMonths e * 2 <= monthCount (run fuel e s))%Z.
Proof.
  induction fuel as [|n IH]; intros e s Hf.
  - simpl. right. lia.
  - cbn [run]. destruct (guard e s) eqn:G.
    + pose proof (body_monthCount e s) as Hm.
      destruct (body e s) as [s'|s'] eqn:B; simpl in Hm.
      * left. apply body_break_balance in B. lra.
      * apply IH. lia.
    + unfold guard in G. apply andb_false_iff in G as [G|G].
      * left. now apply Qltb_false.
      * right. apply Z.ltb_ge in G. exact G.
Qed.

Lemma run_monthCount_le fuel : forall e s,
  (monthCount s <= totalMonths e * 2)%Z ->
  (monthCount s <= monthCount (run fuel e s) <= totalMonths e * 2)%Z.
Proof.
  induction fuel as [|n IH]; intros e s Hc; [simpl; lia|].
  cbn [run]. destruct (guard e s) eqn:G; [|lia].
  unfold guard in G. apply andb_true_iff in G as [_ G].
  apply Z.ltb_lt in G.
  pose proof (body_monthCount e s) as Hm.
  destruct (body e s) as [s'|s']; simpl in Hm; [lia|].
  specialize (IH e s'). lia.
Qed.

End LoopFacts.

(** ** [calculateLoan] and its evaluator *)

Lemma resultEquiv_refl r : resultEquiv r r.
Proof. repeat split; reflexivity. Qed.

Lemma resultEquiv_sym r r' : resultEquiv r r' -> resultEquiv r' r.
Proof. intros (?&?&?&?&?&?&?&?). repeat split; now symmetry. Qed.

Lemma resultEquiv_trans r1 r2 r3 :
  resultEquiv r1 r2 -> resultEquiv r2 r3 -> resultEquiv r1 r3.
Proof.
  intros (?&?&?&?&?&?&?&?) (?&?&?&?&?&?&?&?).
  repeat split; etransitivity; eassumption.
Qed.

Lemma report_equiv loan me s t :
  Loop.equiv s t -> resultEquiv (report loan me s) (report loan me t).
Proof.
  intros (Hb&Hti&Hte&Hc&Hcrb&Hfi&Hfe). unfold report. rewrite Hc.
  destruct (me <=? 0)%Z, (0 <? me)%Z; repeat split; simpl;
    rewrite ?Hti, ?Hte, ?Hcrb, ?Hfi, ?Hfe; reflexivity.
Qed.

Lemma calculateLoan_red loan today :
  resultEquiv (calculateLoan loan today) (calculateLoanRed loan today).
Proof.
  unfold calculateLoan, calculateLoanRed, calculateLoanWith.
  destruct (early loan today && Qeq_bool _ 0); [apply resultEquiv_refl|].
  apply report_equiv, LoopFacts.run_runRed, LoopFacts.equiv_refl.
Qed.

Lemma finalState_red loan today :
  Loop.equiv (finalState loan today)
    (Loop.runRed (cap loan) (envOf loan today)
       (initial loan (openingBalance loan today))).
Proof. apply LoopFacts.run_runRed, LoopFacts.equiv_refl. Qed.

(** ** Months elapsed (C2) *)

Lemma monthsElapsed_calculateLoan loan today :
  monthsElapsed (calculateLoan loan today) = elapsed loan today.
Proof.
  unfold calculateLoan, calculateLoanWith.
  destruct (early loan today && Qeq_bool _ 0) eqn:E; [|reflexivity].
  simpl. unfold early in E.
  apply andb_true_iff in E as [E _]. apply andb_true_iff in E as [E _].
  apply Z.eqb_eq in E. now rewrite E.
Qed.

(** C2, as stated, fails: nothing clamps [monthsElapsed] to the loan's
    horizon.  For a one-year loan (horizon 12 months) started in January
    2000 and evaluated in November 2026, [calculateLoan] returns
    [monthsElapsed = 322]. *)
Lemma monthsElapsed_exceeds_horizon :
  monthsElapsed (calculateLoan longRunningLoan (mkDate 2026 10 2)) = 322%Z /\
  (loanLengthYears longRunningLoan * 12 < 322)%Z.
Proof.
  rewrite monthsElapsed_calculateLoan. split; reflexivity.
Qed.

(** C2, amended: the [monthsElapsed] that [calculateLoan] returns is the
    calendar month difference between today and the start date clamped
    below at 0, and only below: it is never negative, and it equals the
    month difference itself whenever that is not negative, whatever the
    loan's horizon. *)
Theorem monthsElapsed_clamped_below_only loan today :
  monthsElapsed (calculateLoan loan today)
  = Z.max 0 (monthDiff today (startDate loan))
  /\ (0 <= monthsElapsed (calculateLoan loan today))%Z.
Proof.
  rewrite monthsElapsed_calculateLoan. unfold elapsed, Math_maxZ.
  split; [reflexivity | lia].
Qed.

(** ** Lump sum equal to the principal on a loan that has not started (C5) *)

(** C5: when no month has elapsed and the one-time payment equals the full
    (positive) principal, [calculateLoan] returns [monthsToPayout = 0],
    [totalInterestPaid = 0] and [payoffDate = startDate]. *)
Theorem lump_sum_retires_new_loan loan today :
  elapsed loan today = 0%Z ->
  0 < loanAmount loan ->
  oneTimeExtraPayments loan == loanAmount loan ->
  monthsToPayout (calculateLoan loan today) = 0%Z /\
  totalInterestPaid (calculateLoan loan today) = 0 /\
  payoffDate (calculateLoan loan today) = startDate loan.
Proof.
  intros He Hp Ho.
  assert (Hearly : early loan today = true).
  { unfold early. rewrite He. simpl. apply Qltb_true.
    rewrite or0_eq, Ho. exact Hp. }
  assert (Hb : Qeq_bool (openingBalance loan today) 0 = true).
  { apply Qeq_bool_iff. unfold openingBalance. rewrite Hearly.
    destruct (Math_max_spec 0 (loanAmount loan - or0 (oneTimeExtraPayments loan)))
      as [[H ->] | [H ->]]; [|reflexivity].
    rewrite or0_eq, Ho in *. lra. }
  unfold calculateLoan, calculateLoanWith. rewrite Hearly, Hb. simpl.
  repeat split.
Qed.

Lemma lump_sum_retires_new_loan_witness :
  monthsToPayout (calculateLoan lumpSumLoan (mkDate 2026 10 20)) = 0%Z /\
  totalInterestPaid (calculateLoan lumpSumLoan (mkDate 2026 10 20)) = 0 /\
  payoffDate (calculateLoan lumpSumLoan (mkDate 2026 10 20)) = mkDate 2026 10 1.
Proof.
  apply (lump_sum_retires_new_loan lumpSumLoan (mkDate 2026 10 20)).
  - reflexivity.
  - reflexivity.
  - reflexivity.
Defined.

(** ** Break-even months (C6) *)

Lemma breakEven_spec cc diff :
  breakEven (or0 cc) diff = breakEvenSpec cc diff.
Proof.
  unfold breakEven, breakEvenSpec.
  rewrite or0_eq.
  destruct (Qlt_le_dec 0 cc) as [Hc|Hc].
  - apply Qltb_true in Hc as Hc'. rewrite Hc'. simpl.
    destruct (Qlt_le_dec diff 0) as [Hd|Hd].
    + apply Qltb_true in Hd as Hd'. rewrite Hd'.
      assert (Ha : 0 < Qabs diff).
      { rewrite Qabs_neg by lra. lra. }
      apply Qltb_true in Ha. rewrite Ha.
      unfold Math_ceil. now rewrite or0_eq.
    + apply Qltb_false in Hd. now rewrite Hd.
  - apply Qltb_false in Hc. now rewrite Hc.
Qed.

Lemma breakEvenMonths_compareLoan original new today :
  breakEvenMonths (compareLoan original new today)
  = breakEvenSpec (closingCosts new)
                  (monthlyPayment new - monthlyPayment original).
Proof. unfold compareLoan. cbn [breakEvenMonths]. apply breakEven_spec. Qed.

(** C6: [compareLoan] returns
    [breakEvenMonths = ceil(closingCosts / |monthlyPaymentDifference|)] when
    the new loan's closing costs are positive and its monthly payment is
    strictly lower than the original's, and 0 in every other case; closing
    costs of 5000 with a payment difference of -150 give 34. *)
Theorem breakEvenMonths_rule :
  (forall original new today,
      breakEvenMonths (compareLoan original new today)
      = breakEvenSpec (closingCosts new)
                      (monthlyPayment new - monthlyPayment original))
  /\ breakEvenSpec 5000 (-150) = 34%Z
  /\ breakEvenMonths (compareLoan currentMortgage refinanceOffer november2026)
     = 34%Z.
Proof.
  split; [exact breakEvenMonths_compareLoan|].
  split; [reflexivity|].
  rewrite breakEvenMonths_compareLoan. reflexivity.
Qed.

(** ** The safety cap (C1) *)

Lemma early_exit_balance loan today :
  early loan today && Qeq_bool (openingBalance loan today) 0 = true ->
  Loop.balance (finalState loan today) == 0.
Proof.
  intro E. apply andb_true_iff in E as [_ E]. apply Qeq_bool_iff in E.
  unfold finalState. destruct (cap loan); simpl; [exact E|].
  unfold Loop.guard. simpl.
  assert (G : Qltb 0 (openingBalance loan today) = false)
    by (apply Qltb_false; lra).
  rewrite G. simpl. exact E.
Qed.

Lemma calculateLoan_report loan today :
  ~ Loop.balance (finalState loan today) == 0 ->
  calculateLoan loan today
  = report loan (elapsed loan today) (finalState loan today).
Proof.
  intro H. unfold calculateLoan, calculateLoanWith.
  destruct (early loan today && Qeq_bool _ 0) eqn:E; [|reflexivity].
  exfalso. apply H. now apply early_exit_balance.
Qed.

Lemma finalState_monthCount_at_cap loan today :
  (0 <= loanLengthYears loan)%Z ->
  doesNotAmortize loan today ->
  Loop.monthCount (finalState loan today) = (loanLengthYears loan * 12 * 2)%Z.
Proof.
  intros Hy Hpos. unfold doesNotAmortize in Hpos. unfold finalState in *.
  set (e := envOf loan today) in *.
  set (s := initial loan (openingBalance loan today)) in *.
  assert (Ht : Loop.totalMonths e = (loanLengthYears loan * 12)%Z) by reflexivity.
  destruct (LoopFacts.run_exit (cap loan) e s) as [H|H].
  - unfold cap. simpl. lia.
  - lra.
  - pose proof (LoopFacts.run_monthCount_le (cap loan) e s) as Hle.
    simpl in Hle. lia.
Qed.

Lemma slowPayer_doesNotAmortize : doesNotAmortize slowPayer november2026.
Proof.
  unfold doesNotAmortize.
  destruct (finalState_red slowPayer november2026) as [Hb _].
  rewrite Hb. vm_compute. reflexivity.
Qed.

(** C1, as stated, fails: [calculateLoan] has no outcome for a loan that
    does not amortize.  The loan that still owes 1200 when the cap of 24
    months is reached gets the very result of the loan that is paid off in
    month 24: [monthsToPayout = 24], the same payoff date, the same totals. *)
Lemma non_amortizing_result_not_distinct :
  doesNotAmortize slowPayer november2026 /\
  paysOff steadyPayer november2026 /\
  monthsToPayout (calculateLoan slowPayer november2026) = 24%Z /\
  resultEquiv (calculateLoan slowPayer november2026)
              (calculateLoan steadyPayer november2026).
Proof.
  split; [exact slowPayer_doesNotAmortize|].
  split.
  { unfold paysOff.
    destruct (finalState_red steadyPayer november2026) as [Hb _].
    rewrite Hb. vm_compute. reflexivity. }
  pose proof (calculateLoan_red slowPayer november2026) as H1.
  pose proof (calculateLoan_red steadyPayer november2026) as H2.
  split.
  { destruct H1 as (_&_&_&Hm&_). rewrite Hm. vm_compute. reflexivity. }
  eapply resultEquiv_trans; [exact H1|].
  eapply resultEquiv_trans; [|apply resultEquiv_sym; exact H2].
  vm_compute. repeat split.
Qed.

(** C1, amended: when the loop reaches the cap with the balance still
    positive, [calculateLoan] returns the ordinary result record built from
    the cap-truncated locals: the month counter is [2 * totalMonths],
    [monthsToPayout] is that count (less the months elapsed, floored at 0,
    for a loan that has started) and [payoffDate] is the start date plus
    [2 * totalMonths] months.  No separate outcome is reported. *)
Theorem cap_reached_reports_ordinary_result loan today :
  (0 <= loanLengthYears loan)%Z ->
  doesNotAmortize loan today ->
  Loop.monthCount (finalState loan today) = (loanLengthYears loan * 12 * 2)%Z /\
  calculateLoan loan today
  = report loan (elapsed loan today) (finalState loan today) /\
  monthsToPayout (calculateLoan loan today)
  = (if (0 <? elapsed loan today)%Z
     then Z.max 0 (loanLengthYears loan * 12 * 2 - elapsed loan today)
     else loanLengthYears loan * 12 * 2)%Z /\
  payoffDate (calculateLoan loan today)
  = setMonthPlus (startDate loan) (loanLengthYears loan * 12 * 2).
Proof.
  intros Hy Hpos.
  pose proof (finalState_monthCount_at_cap loan today Hy Hpos) as Hc.
  assert (Hr := calculateLoan_report loan today).
  rewrite Hr by (unfold doesNotAmortize in Hpos; lra).
  repeat split; try assumption; unfold report; simpl; now rewrite Hc.
Qed.

Lemma cap_reached_reports_ordinary_result_witness :
  Loop.monthCount (finalState slowPayer november2026) = 24%Z /\
  calculateLoan slowPayer november2026
  = report slowPayer 0 (finalState slowPayer november2026) /\
  monthsToPayout (calculateLoan slowPayer november2026) = 24%Z /\
  payoffDate (calculateLoan slowPayer november2026) = mkDate 2028 10 2.
Proof.
  apply (cap_reached_reports_ordinary_result slowPayer november2026).
  - vm_compute. discriminate.
  - exact slowPayer_doesNotAmortize.
Defined.

(** ** The running balance (C3) *)

Module BalanceFacts.
Import Loop.

Lemma afterOneTime_nonneg e mc b : 0 <= b -> 0 <= afterOneTime e mc b.
Proof.
  intro Hb. unfold afterOneTime.
  destruct (oneTimeDue e mc); [apply Math_max_0_nonneg | exact Hb].
Qed.

Lemma afterOneTime_le e mc b : 0 <= b -> afterOneTime e mc b <= b.
Proof.
  intro Hb. unfold afterOneTime.
  destruct (oneTimeDue e mc) eqn:D; [|lra].
  unfold oneTimeDue in D. apply andb_true_iff in D as [_ D].
  apply Qltb_true in D.
  destruct (Math_max_spec 0 (b - oneTimeExtraPayments e)) as [[H ->]|[H ->]];
    lra.
Qed.

Lemma body_next_balance e s s' :
  body e s = Next s' ->
  let b := afterOneTime e (monthCount s + 1) (balance s) in
  let x := if applyExtraPayment e (monthCount s + 1) then extraPayment e else 0 in
  balance s' = b - (principalAndInterest e - b * monthlyRate e + x) /\
  0 < balance s'.
Proof.
  unfold body.
  destruct (oneTimeDue e _ && Qeq_bool _ 0); [discriminate|].
  destruct (Qle_bool _ _) eqn:L; [discriminate|].
  intros [= <-]. simpl. split; [reflexivity|].
  apply Qle_bool_false in L. lra.
Qed.

Lemma balances_nonneg fuel : forall e s,
  0 <= balance s -> Forall (fun b => 0 <= b) (balances fuel e s).
Proof.
  induction fuel as [|n IH]; intros e s Hb; cbn [balances]; [constructor|].
  destruct (guard e s); [|constructor].
  pose proof (afterOneTime_nonneg e (monthCount s + 1) _ Hb) as Hmid.
  destruct (body e s) as [s'|s'] eqn:B.
  - apply LoopFacts.body_break_balance in B.
    repeat constructor; [exact Hmid | lra].
  - apply body_next_balance in B as [_ B].
    constructor; [exact Hmid|]. constructor; [lra|]. apply IH. lra.
Qed.

(** If the payment covers the interest on [bound] and nothing owed ever
    exceeds [bound], every pass lowers the balance or leaves it. *)
Lemma balances_nonIncreasing fuel : forall e s bound,
  0 <= monthlyRate e ->
  0 <= extraPayment e ->
  bound * monthlyRate e <= principalAndInterest e ->
  0 <= balance s <= bound ->
  nonIncreasing (balance s :: balances fuel e s).
Proof.
  induction fuel as [|n IH]; intros e s bound Hr Hx Hpi Hb;
    cbn [balances]; [exact I|].
  destruct (guard e s); [|exact I].
  pose proof (afterOneTime_nonneg e (monthCount s + 1) _ (proj1 Hb)) as Hmid0.
  pose proof (afterOneTime_le e (monthCount s + 1) _ (proj1 Hb)) as Hmid.
  destruct (body e s) as [s'|s'] eqn:B.
  - apply LoopFacts.body_break_balance in B.
    cbn. repeat split; [exact Hmid | lra].
  - apply body_next_balance in B as [Hs' Hpos].
    set (b := afterOneTime e (monthCount s + 1) (balance s)) in *.
    assert (Hx' : 0 <= (if applyExtraPayment e (monthCount s + 1)
                        then extraPayment e else 0))
      by (destruct (applyExtraPayment e _); lra).
    assert (Hbr : b * monthlyRate e <= bound * monthlyRate e)
      by (apply Qmult_le_compat_r; lra).
    assert (Hle : balance s' <= b) by (rewrite Hs'; lra).
    split; [exact Hmid|]. split; [exact Hle|].
    apply (IH e s' bound); try assumption. lra.
Qed.

End BalanceFacts.

Lemma openingBalance_nonneg loan today :
  0 <= loanAmount loan -> 0 <= openingBalance loan today.
Proof.
  intro H. unfold openingBalance.
  destruct (early loan today); [apply Math_max_0_nonneg | exact H].
Qed.

Lemma openingBalance_le loan today :
  0 <= loanAmount loan -> openingBalance loan today <= loanAmount loan.
Proof.
  intro H. unfold openingBalance.
  destruct (early loan today) eqn:E; [|lra].
  unfold early in E. apply andb_true_iff in E as [_ E]. apply Qltb_true in E.
  destruct (Math_max_spec 0 (loanAmount loan - or0 (oneTimeExtraPayments loan)))
    as [[H' ->]|[H' ->]]; lra.
Qed.

Lemma nonIncreasing_step l i a b :
  nonIncreasing l ->
  nth_error l i = Some a -> nth_error l (S i) = Some b -> b <= a.
Proof.
  revert l. induction i as [|i IH]; intros l Hl Ha Hb.
  - destruct l as [|x [|y l]]; try discriminate.
    simpl in *. injection Ha as <-. injection Hb as <-. apply Hl.
  - destruct l as [|x [|y l]]; try discriminate.
    apply (IH (y :: l)); [apply Hl | exact Ha | exact Hb].
Qed.

(** C3, as stated, fails: the balance can grow.  With a payment of 500
    against a monthly interest of 1000 the balance goes from 100000 to
    100500 in the first month. *)
Lemma balance_can_grow :
  ~ nonIncreasing (balanceHistory underwaterLoan november2026).
Proof.
  intro H.
  assert (Ha : nth_error (balanceHistory underwaterLoan november2026) 2
               = Some (100000 # 1)) by (lazy; reflexivity).
  assert (exists b, nth_error (balanceHistory underwaterLoan november2026) 3
                    = Some b /\ b == 100500) as (b & Hb & Hbv).
  { eexists. split; [lazy; reflexivity | reflexivity]. }
  pose proof (nonIncreasing_step _ _ _ _ H Ha Hb) as Hle.
  rewrite Hbv in Hle. revert Hle. apply Qlt_not_le. reflexivity.
Qed.

(** C3, amended: for a loan amount that is not negative the running balance
    is never negative at any point (after one-time payments and in the
    final month included); it is non-increasing from one month to the next
    when, in addition, the rate and the recurring extra payment are not
    negative and the principal-and-interest payment covers the interest on
    the loan amount. *)
Theorem balance_nonneg_and_conditionally_nonIncreasing loan today :
  0 <= loanAmount loan ->
  Forall (fun b => 0 <= b) (balanceHistory loan today) /\
  (0 <= interestRate loan ->
   0 <= extraPayment loan ->
   loanAmount loan * (interestRate loan / 100 / 12)
   <= monthlyPayment loan - escrow loan ->
   nonIncreasing (balanceHistory loan today)).
Proof.
  intro Hla.
  pose proof (openingBalance_nonneg loan today Hla) as Hob0.
  pose proof (openingBalance_le loan today Hla) as Hob.
  split.
  - unfold balanceHistory. constructor; [exact Hla|].
    constructor; [exact Hob0|].
    apply BalanceFacts.balances_nonneg. exact Hob0.
  - intros Hr Hx Hpi. unfold balanceHistory.
    set (s := initial loan (openingBalance loan today)).
    assert (Hn : nonIncreasing
                   (Loop.balance s :: Loop.balances (cap loan) (envOf loan today) s)).
    { apply (BalanceFacts.balances_nonIncreasing _ _ _ (loanAmount loan));
        cbn [envOf Loop.monthlyRate Loop.extraPayment Loop.principalAndInterest
             Loop.balance initial s].
      + now apply monthlyRate_nonneg.
      + rewrite or0_eq. exact Hx.
      + rewrite or0_eq. exact Hpi.
      + split; assumption. }
    change (openingBalance loan today <= loanAmount loan /\
            nonIncreasing
              (Loop.balance s :: Loop.balances (cap loan) (envOf loan today) s)).
    split; [exact Hob | exact Hn].
Qed.

Lemma balance_nonneg_and_conditionally_nonIncreasing_witness :
  Forall (fun b => 0 <= b) (balanceHistory coveredLoan november2026) /\
  nonIncreasing (balanceHistory coveredLoan november2026).
Proof.
  destruct (balance_nonneg_and_conditionally_nonIncreasing
              coveredLoan november2026) as [H1 H2].
  - vm_compute. discriminate.
  - split; [exact H1|]. apply H2.
    + vm_compute. discriminate.
    + vm_compute. discriminate.
    + vm_compute. discriminate.
Defined.

(** ** A zero interest rate (C9) *)

Module ZeroRate.
Import Loop.

Lemma body_interest e s :
  monthlyRate e == 0 ->
  totalInterest s == 0 -> futureInterest s == 0 ->
  totalInterest (final (body e s)) == 0 /\
  futureInterest (final (body e s)) == 0.
Proof.
  intros Hr Ht Hf. unfold body.
  destruct (oneTimeDue e _ && Qeq_bool _ 0); [now split|].
  destruct (Qle_bool _ _); simpl;
    (destruct (monthsElapsed e <? monthCount s + 1)%Z; split;
     rewrite ?Ht, ?Hf, ?Hr; try reflexivity; ring).
Qed.

Lemma run_interest fuel : forall e s,
  monthlyRate e == 0 ->
  totalInterest s == 0 -> futureInterest s == 0 ->
  totalInterest (run fuel e s) == 0 /\ futureInterest (run fuel e s) == 0.
Proof.
  induction fuel as [|n IH]; intros e s Hr Ht Hf; cbn [run]; [now split|].
  destruct (guard e s); [|now split].
  pose proof (body_interest e s Hr Ht Hf) as [Ht' Hf'].
  destruct (body e s) as [s'|s']; simpl in Ht', Hf'; [now split|].
  now apply IH.
Qed.

Lemma interests_zero fuel : forall e s,
  monthlyRate e == 0 -> Forall (fun i => i == 0) (interests fuel e s).
Proof.
  induction fuel as [|n IH]; intros e s Hr; cbn [interests]; [constructor|].
  destruct (guard e s); [|constructor].
  destruct (body e s) as [s'|s'].
  - destruct (oneTimeDue e _ && Qeq_bool _ 0); constructor;
      [rewrite Hr; ring | constructor].
  - constructor; [rewrite Hr; ring | now apply IH].
Qed.

End ZeroRate.

Lemma divide_nonzero a b : ~ b == 0 -> divide a b = Some (a / b).
Proof.
  intro H. unfold divide. apply Qeq_bool_false in H. now rewrite H.
Qed.

Lemma inject_Z_nonzero z : z <> 0%Z -> ~ inject_Z z == 0.
Proof.
  intros Hz H. apply Hz. unfold Qeq in H. simpl in H. lia.
Qed.

(** C9: with an annual rate of zero, [calculateLoan] (a total function whose
    only divisions are by the constants 100 and 12) computes a zero interest
    term in every month it simulates and returns [totalInterestPaid = 0];
    and [calculateMonthlyPayment] returns [P / (term * 12)], a division by a
    non-zero number, for any term of at least one year. *)
Theorem zero_rate_is_safe loan today P term rate :
  interestRate loan == 0 ->
  rate == 0 ->
  (1 <= term)%Z ->
  (divide (interestRate loan) 100 = Some (interestRate loan / 100) /\
   divide (interestRate loan / 100) 12 = Some (interestRate loan / 100 / 12)) /\
  Forall (fun i => i == 0) (interestHistory loan today) /\
  totalInterestPaid (calculateLoan loan today) == 0 /\
  calculateMonthlyPayment P term rate = Some (P / inject_Z (term * 12)).
Proof.
  intros Hr Hrate Hterm.
  assert (Hm : Loop.monthlyRate (envOf loan today) == 0).
  { cbn [envOf Loop.monthlyRate]. rewrite monthlyRate_scaled, Hr. ring. }
  split; [split; apply divide_nonzero; discriminate|].
  split; [now apply ZeroRate.interests_zero|].
  split.
  - unfold calculateLoan, calculateLoanWith.
    destruct (early loan today && Qeq_bool _ 0); [reflexivity|].
    destruct (ZeroRate.run_interest (cap loan) (envOf loan today)
                (initial loan (openingBalance loan today)) Hm)
      as [Ht Hf]; try reflexivity.
    unfold report. cbn [totalInterestPaid].
    destruct (0 <? elapsed loan today)%Z, (elapsed loan today <=? 0)%Z;
      assumption.
  - unfold calculateMonthlyPayment.
    assert (E : Qeq_bool (rate / 100 / 12) 0 = true).
    { apply Qeq_bool_iff. rewrite monthlyRate_scaled, Hrate. ring. }
    rewrite E. apply divide_nonzero, inject_Z_nonzero. lia.
Qed.

Lemma zero_rate_is_safe_witness :
  Forall (fun i => i == 0) (interestHistory interestFreeLoan november2026) /\
  totalInterestPaid (calculateLoan interestFreeLoan november2026) == 0 /\
  calculateMonthlyPayment 24000 2 0 = Some (24000 / inject_Z (2 * 12)).
Proof.
  apply (zero_rate_is_safe interestFreeLoan november2026 24000 2 0).
  - reflexivity.
  - reflexivity.
  - lia.
Defined.

(** ** The older revision against the current one (C10) *)

Module Revisions.
Import Loop.

(** The current body with no one-time payment due and recurring extra
    payments continued is the older body. *)
Lemma old_body_as_body e1 e2 s :
  monthlyRate e1 = monthlyRate e2 ->
  principalAndInterest e1 = principalAndInterest e2 ->
  monthsElapsed e1 = monthsElapsed e2 ->
  extraPayment e1 = extraPayment e2 ->
  Qltb 0 (oneTimeExtraPayments e2) = false ->
  continueExtraPayments e2 = true ->
  Old.body e1 s = body e2 s.
Proof.
  intros Hr Hpi Hme Hx Hot Hc. unfold Old.body, body.
  assert (Hd : oneTimeDue e2 (monthCount s + 1) = false).
  { unfold oneTimeDue. rewrite Hot. apply andb_false_r. }
  assert (Ha : applyExtraPayment e2 (monthCount s + 1) = true).
  { unfold applyExtraPayment. rewrite Hc.
    destruct (monthsElapsed e2 =? 0)%Z, (monthCount s + 1 <=? monthsElapsed e2)%Z;
      reflexivity. }
  unfold afterOneTime. rewrite Hd, Ha. simpl.
  rewrite Hr, Hpi, Hme, Hx. reflexivity.
Qed.

Lemma old_run_as_run fuel : forall e1 e2 s,
  monthlyRate e1 = monthlyRate e2 ->
  totalMonths e1 = totalMonths e2 ->
  principalAndInterest e1 = principalAndInterest e2 ->
  monthsElapsed e1 = monthsElapsed e2 ->
  extraPayment e1 = extraPayment e2 ->
  Qltb 0 (oneTimeExtraPayments e2) = false ->
  continueExtraPayments e2 = true ->
  Old.run fuel e1 s = run fuel e2 s.
Proof.
  induction fuel as [|n IH]; intros e1 e2 s Hr Htm Hpi Hme Hx Hot Hc;
    [reflexivity|].
  cbn [Old.run run].
  rewrite (old_body_as_body e1 e2 s Hr Hpi Hme Hx Hot Hc).
  unfold guard at 1. rewrite Htm. fold (guard e2 s).
  destruct (guard e2 s); [|reflexivity].
  destruct (body e2 s); [reflexivity|]. now apply IH.
Qed.

(** The snapshot of today's balance is never negative. *)
Lemma run_currentRemainingBalance_nonneg fuel : forall e s,
  0 <= currentRemainingBalance s ->
  0 <= currentRemainingBalance (run fuel e s).
Proof.
  induction fuel as [|n IH]; intros e s H; cbn [run]; [exact H|].
  destruct (guard e s); [|exact H].
  destruct (body e s) as [s'|s'] eqn:B.
  - revert B. unfold body.
    destruct (oneTimeDue e _ && Qeq_bool _ 0); [now intros [= <-]|].
    destruct (Qle_bool _ _); [now intros [= <-] | discriminate].
  - apply IH.
    pose proof (BalanceFacts.body_next_balance e s s' B) as [_ Hpos].
    revert B Hpos. unfold body.
    destruct (oneTimeDue e _ && Qeq_bool _ 0); [discriminate|].
    destruct (Qle_bool _ _); [discriminate|].
    intros [= <-]. simpl.
    destruct (monthCount s + 1 =? monthsElapsed e)%Z; intros; lra.
Qed.

End Revisions.

Lemma old_loop_equiv loan today :
  oneTimeExtraPayments loan == 0 ->
  continueExtraPayments loan = true ->
  Loop.equiv
    (Old.run (cap loan) (Old.envOf loan today) (initial loan (loanAmount loan)))
    (finalState loan today)
  /\ early loan today = false.
Proof.
  intros Hot Hc.
  assert (Hlt : Qltb 0 (oneTimeExtraPayments loan) = false)
    by (apply Qltb_false; lra).
  assert (He : early loan today = false).
  { unfold early. rewrite or0_eq, Hlt. apply andb_false_r. }
  split; [|exact He].
  rewrite (Revisions.old_run_as_run (cap loan) (Old.envOf loan today)
             (oldEnvContinued loan today)); try reflexivity; try assumption.
  unfold finalState, openingBalance. rewrite He.
  apply LoopFacts.run_equiv; [|apply LoopFacts.equiv_refl].
  repeat split; simpl; try reflexivity; rewrite ?or0_eq; try reflexivity.
  now symmetry.
Qed.

(** C10, as stated, fails: for a loan that has already started the two
    revisions disagree on [monthsToPayout].  Six months into a twelve-month
    repayment the older revision reports 12 (months from the start date),
    the current one 6 (months remaining from today). *)
Lemma revisions_differ_on_monthsToPayout :
  oneTimeExtraPayments startedInMay == 0 /\
  continueExtraPayments startedInMay = true /\
  monthsToPayout (Old.calculateLoan startedInMay november2026) = 12%Z /\
  monthsToPayout (calculateLoan startedInMay november2026) = 6%Z.
Proof.
  split; [reflexivity|]. split; [reflexivity|].
  destruct (old_loop_equiv startedInMay november2026) as [Ho _];
    try reflexivity.
  pose proof (finalState_red startedInMay november2026) as Hn.
  pose proof (LoopFacts.equiv_trans _ _ _ Ho Hn) as (_&_&_&Hm&_).
  split.
  - unfold Old.calculateLoan, Old.report. cbn [monthsToPayout].
    cbn [Loop.monthsElapsed Old.envOf]. rewrite Hm. vm_compute. reflexivity.
  - destruct (calculateLoan_red startedInMay november2026) as (_&_&_&H&_).
    rewrite H. vm_compute. reflexivity.
Qed.

(** C10, amended: with no one-time payment, recurring extra payments
    continued and a loan amount that is not negative, the two revisions
    agree on every field except [monthsToPayout] and [yearsToPayout]: there
    the older revision counts the months from the start date and the
    current one the months remaining from today, that is the older count
    less [monthsElapsed], floored at 0, once the loan has started.  When no
    month has elapsed the two results are identical. *)
Theorem revisions_agree_up_to_remaining_months loan today :
  oneTimeExtraPayments loan == 0 ->
  continueExtraPayments loan = true ->
  0 <= loanAmount loan ->
  let new := calculateLoan loan today in
  let old := Old.calculateLoan loan today in
  totalInterestPaid new == totalInterestPaid old /\
  totalAmountPaid new == totalAmountPaid old /\
  totalExtraPayment new == totalExtraPayment old /\
  payoffDate new = payoffDate old /\
  currentRemainingBalance new == currentRemainingBalance old /\
  monthsElapsed new = monthsElapsed old /\
  monthsToPayout new
  = (if (0 <? monthsElapsed old)%Z
     then Z.max 0 (monthsToPayout old - monthsElapsed old)
     else monthsToPayout old) /\
  (monthsElapsed old = 0%Z -> resultEquiv new old).
Proof.
  intros Hot Hc Hla new old.
  destruct (old_loop_equiv loan today Hot Hc) as [Heq He].
  assert (Hnew : new = report loan (elapsed loan today) (finalState loan today)).
  { unfold new, calculateLoan, calculateLoanWith. rewrite He. reflexivity. }
  assert (Hcrb : 0 <= Loop.currentRemainingBalance (finalState loan today)).
  { apply Revisions.run_currentRemainingBalance_nonneg. exact Hla. }
  set (sn := finalState loan today) in *.
  set (so := Old.run (cap loan) (Old.envOf loan today)
                     (initial loan (loanAmount loan))) in *.
  assert (Hold : old = Old.report loan (elapsed loan today) so) by reflexivity.
  destruct Heq as (Hb&Hti&Hte&Hm&Hcr&Hfi&Hfe).
  assert (Hmax : forall x, 0 <= x ->
                   Math_max 0 (x - oneTimeExtraPayments loan) == x).
  { intros x Hx.
    destruct (Math_max_spec 0 (x - oneTimeExtraPayments loan))
      as [[H ->]|[H ->]]; lra. }
  rewrite Hnew, Hold. unfold report, Old.report.
  cbn [totalInterestPaid totalAmountPaid totalExtraPayment payoffDate
       currentRemainingBalance monthsElapsed monthsToPayout].
  unfold Math_maxZ. rewrite Hm.
  destruct (0 <? elapsed loan today)%Z eqn:E1;
    destruct (elapsed loan today <=? 0)%Z eqn:E2;
    try (apply Z.ltb_lt in E1; apply Z.leb_le in E2; lia);
    try (apply Z.ltb_ge in E1; apply Z.leb_gt in E2; lia).
  - assert (H1 : Math_max 0 (Loop.currentRemainingBalance so
                             - oneTimeExtraPayments loan)
                 == Loop.currentRemainingBalance sn)
      by (rewrite (Hmax (Loop.currentRemainingBalance so)); lra).
    apply Z.ltb_lt in E1.
    split; [now symmetry|]. split; [rewrite H1, Hfi; reflexivity|].
    split; [now symmetry|]. split; [reflexivity|].
    split; [now symmetry|]. split; [reflexivity|].
    split; [reflexivity|]. intro; lia.
  - assert (H2 : Math_max 0 (loanAmount loan - oneTimeExtraPayments loan)
                 == loanAmount loan)
      by (rewrite (Hmax (loanAmount loan)); lra).
    split; [now symmetry|]. split; [rewrite Hti; reflexivity|].
    split; [now symmetry|]. split; [reflexivity|].
    split; [now symmetry|]. split; [reflexivity|].
    split; [reflexivity|]. intros _.
    repeat split; simpl; rewrite ?Hti, ?Hte, ?H2; try reflexivity.
Qed.

Lemma revisions_agree_up_to_remaining_months_witness :
  monthsToPayout (calculateLoan startedInMay november2026)
  = (if (0 <? monthsElapsed (Old.calculateLoan startedInMay november2026))%Z
     then Z.max 0 (monthsToPayout (Old.calculateLoan startedInMay november2026)
                   - monthsElapsed (Old.calculateLoan startedInMay november2026))
     else monthsToPayout (Old.calculateLoan startedInMay november2026)).
Proof.
  destruct (revisions_agree_up_to_remaining_months startedInMay november2026)
    as (_&_&_&_&_&_&H&_).
  - reflexivity.
  - reflexivity.
  - vm_compute. discriminate.
  - exact H.
Defined.

(** ** Powers, geometric sums and the level payment (C7, C8) *)

Module PowerFacts.

#[global] Instance powN_comp : Proper (Qeq ==> eq ==> Qeq) powN.
Proof.
  intros x y Hxy k k' <-. induction k as [|k IH]; simpl; [reflexivity|].
  now rewrite IH, Hxy.
Qed.

#[global] Instance geomN_comp : Proper (Qeq ==> eq ==> Qeq) geomN.
Proof.
  intros x y Hxy k k' <-. induction k as [|k IH]; simpl; [reflexivity|].
  now rewrite IH, Hxy.
Qed.

Lemma Qpower_powN x k : x ^ Z.of_nat k == powN x k.
Proof.
  induction k as [|k IH]; [reflexivity|].
  rewrite Nat2Z.inj_succ, <- Z.add_1_l.
  rewrite Qpower_plus' by lia. rewrite IH. reflexivity.
Qed.

Lemma powN_ge1 x k : 1 <= x -> 1 <= powN x k.
Proof.
  intro Hx. induction k as [|k IH]; simpl; [lra|]. nra.
Qed.

Lemma powN_mono x y k : 1 <= x -> x <= y -> powN x k <= powN y k.
Proof.
  intros Hx Hxy. induction k as [|k IH]; simpl; [lra|].
  pose proof (powN_ge1 x k Hx). nra.
Qed.

Lemma geomN_nonneg x k : 1 <= x -> 0 <= geomN x k.
Proof.
  intro Hx. induction k as [|k IH]; simpl; [lra|].
  pose proof (powN_ge1 x k Hx). lra.
Qed.

Lemma geomN_pos x k : 1 <= x -> (0 < k)%nat -> 0 < geomN x k.
Proof.
  intros Hx Hk. destruct k as [|k]; [lia|]. simpl.
  pose proof (powN_ge1 x k Hx). pose proof (geomN_nonneg x k Hx). lra.
Qed.

(** [x^k - 1 = (x - 1) (1 + x + ... + x^(k-1))]. *)
Lemma powN_geom x k : powN x k - 1 == (x - 1) * geomN x k.
Proof.
  induction k as [|k IH]; simpl; [ring|].
  assert (H : powN x k == 1 + (x - 1) * geomN x k) by (rewrite <- IH; ring).
  rewrite H. ring.
Qed.

Lemma geomN_one k : geomN 1 k == inject_Z (Z.of_nat k).
Proof.
  induction k as [|k IH]; [reflexivity|].
  cbn [geomN]. rewrite IH, Nat2Z.inj_succ. unfold Z.succ.
  rewrite inject_Z_plus.
  assert (H : powN 1 k == 1).
  { clear. induction k as [|k IH]; simpl; [reflexivity|]. rewrite IH. ring. }
  rewrite H. reflexivity.
Qed.

(** Each of the [k] terms of the sum is at most [x^k]. *)
Lemma geomN_le x k :
  1 <= x -> geomN x k <= inject_Z (Z.of_nat k) * powN x k.
Proof.
  intro Hx. induction k as [|k IH]; [unfold Qle; simpl; lia|].
  cbn [geomN powN]. rewrite Nat2Z.inj_succ. unfold Z.succ.
  rewrite inject_Z_plus.
  pose proof (powN_ge1 x k Hx) as Hp.
  assert (Hk : 0 <= inject_Z (Z.of_nat k)).
  { change 0 with (inject_Z 0). rewrite <- Zle_Qle. lia. }
  set (n := inject_Z (Z.of_nat k)) in *.
  set (p := powN x k) in *. set (g := geomN x k) in *.
  change (inject_Z 1) with 1.
  assert (H1 : 0 <= (x - 1) * p) by (apply Qmult_le_0_compat; lra).
  assert (H2 : 0 <= n * ((x - 1) * p)) by (apply Qmult_le_0_compat; lra).
  lra.
Qed.

(** [x^k / (1 + ... + x^(k-1))] grows with [x], stated without division. *)
Lemma ratio_mono x y k :
  1 <= x -> x <= y -> powN x k * geomN y k <= powN y k * geomN x k.
Proof.
  intros Hx Hxy. induction k as [|k IH]; [simpl; lra|].
  cbn [geomN powN].
  pose proof (powN_ge1 x k Hx) as Ha.
  pose proof (powN_ge1 y k ltac:(lra)) as Hb.
  pose proof (geomN_nonneg x k Hx) as Hg.
  pose proof (geomN_nonneg y k ltac:(lra)) as Hh.
  set (a := powN x k) in *. set (b := powN y k) in *.
  set (g := geomN x k) in *. set (h := geomN y k) in *.
  assert (H1 : x * (a * h) <= y * (b * g)).
  { apply Qle_trans with (x * (b * g)).
    - apply Qmult_le_l; [lra | exact IH].
    - apply Qmult_le_compat_r; [exact Hxy | nra]. }
  assert (H2 : x * (a * b) <= y * (a * b)).
  { apply Qmult_le_compat_r; [exact Hxy | nra]. }
  nra.
Qed.

End PowerFacts.

Lemma powN_one k : powN 1 k == 1.
Proof. induction k as [|k IH]; simpl; [reflexivity|]. rewrite IH. ring. Qed.

(** Cancelling a positive factor. *)
Lemma Qmult_le_cancel_pos a b g : 0 < g -> a * g <= b * g -> a <= b.
Proof. intros Hg H. apply Qmult_le_r with g; assumption. Qed.

Lemma totalMonths_nat term :
  (1 <= term)%Z -> Z.of_nat (monthsN term) = (term * 12)%Z.
Proof. intro H. unfold monthsN. apply Z2Nat.id. lia. Qed.

Lemma monthsN_pos term : (1 <= term)%Z -> (0 < monthsN term)%nat.
Proof. intro H. unfold monthsN. lia. Qed.

(** The value of [calculateMonthlyPayment] on its domain, division-free:
    [m * (1 + x + ... + x^(n-1)) = P * x^n] with [x = 1 + monthlyRate]. *)
Lemma calculateMonthlyPayment_value P term rate :
  0 <= rate -> (1 <= term)%Z ->
  exists m,
    calculateMonthlyPayment P term rate = Some m /\
    m * geomN (1 + rate / 100 / 12) (monthsN term)
    == P * powN (1 + rate / 100 / 12) (monthsN term).
Proof.
  intros Hrate Hterm.
  pose proof (monthlyRate_nonneg rate Hrate) as Hr.
  pose proof (totalMonths_nat term Hterm) as Hn.
  pose proof (monthsN_pos term Hterm) as Hn0.
  unfold calculateMonthlyPayment.
  set (r := rate / 100 / 12) in *. set (n := monthsN term) in *.
  destruct (Qeq_bool r 0) eqn:E.
  - apply Qeq_bool_iff in E.
    exists (P / inject_Z (term * 12)). split.
    + apply divide_nonzero, inject_Z_nonzero. lia.
    + assert (Hx : 1 + r == 1) by (rewrite E; ring).
      rewrite Hx, PowerFacts.geomN_one, powN_one, Hn.
      field. apply inject_Z_nonzero. lia.
  - apply Qeq_bool_false in E.
    assert (Hrpos : 0 < r) by (apply Qle_lteq in Hr as [H|H]; [exact H|]; exfalso; apply E; now symmetry).
    assert (Hx : Qeq_bool (1 + r) 0 = false) by (apply Qeq_bool_false; lra).
    unfold levelPayment, Math_pow. rewrite Hx. simpl.
    pose proof (PowerFacts.Qpower_powN (1 + r) n) as Hq. rewrite Hn in Hq.
    pose proof (PowerFacts.powN_geom (1 + r) n) as Hg.
    pose proof (PowerFacts.geomN_pos (1 + r) n ltac:(lra) Hn0) as Hgpos.
    set (q := (1 + r) ^ (term * 12)) in *.
    set (q' := powN (1 + r) n) in *. set (g := geomN (1 + r) n) in *.
    assert (Hq1 : q - 1 == r * g) by (rewrite Hq, Hg; ring).
    assert (Hne : ~ q - 1 == 0).
    { rewrite Hq1. intro H. apply Qmult_integral in H as [H|H]; lra. }
    exists (P * (r * q) / (q - 1)). split; [now apply divide_nonzero|].
    rewrite Hq1, Hq. field. split; lra.
Qed.

(** The payment grows with the rate. *)
Lemma calculateMonthlyPayment_mono P term r1 r2 m1 m2 :
  0 <= P -> (1 <= term)%Z -> 0 <= r1 -> r1 <= r2 ->
  calculateMonthlyPayment P term r1 = Some m1 ->
  calculateMonthlyPayment P term r2 = Some m2 ->
  m1 <= m2.
Proof.
  intros HP Hterm H1 H12 E1 E2.
  destruct (calculateMonthlyPayment_value P term r1 H1 Hterm) as (m1'&E1'&V1).
  destruct (calculateMonthlyPayment_value P term r2 ltac:(lra) Hterm)
    as (m2'&E2'&V2).
  rewrite E1 in E1'. injection E1' as <-.
  rewrite E2 in E2'. injection E2' as <-.
  pose proof (monthlyRate_nonneg r1 H1) as Hx1.
  assert (Hx12 : 1 + r1 / 100 / 12 <= 1 + r2 / 100 / 12).
  { rewrite !monthlyRate_scaled. lra. }
  assert (Hx1' : 1 <= 1 + r1 / 100 / 12) by lra.
  assert (Hy1 : 1 <= 1 + r2 / 100 / 12) by lra.
  set (x := 1 + r1 / 100 / 12) in *. set (y := 1 + r2 / 100 / 12) in *.
  set (n := monthsN term) in *.
  pose proof (PowerFacts.ratio_mono x y n Hx1' Hx12) as Hm.
  pose proof (PowerFacts.geomN_pos x n Hx1' (monthsN_pos term Hterm)) as Gx.
  pose proof (PowerFacts.geomN_pos y n Hy1 (monthsN_pos term Hterm)) as Gy.
  apply Qmult_le_cancel_pos with (geomN x n * geomN y n).
  - apply Qmult_lt_0_compat; assumption.
  - assert (Ha : m1 * (geomN x n * geomN y n) == P * (powN x n * geomN y n))
      by (rewrite Qmult_assoc, V1; ring).
    assert (Hb : m2 * (geomN x n * geomN y n) == P * (powN y n * geomN x n)).
    { setoid_replace (m2 * (geomN x n * geomN y n))
        with (m2 * geomN y n * geomN x n) by ring.
      rewrite V2. ring. }
    rewrite Ha, Hb, !(Qmult_comm P). apply Qmult_le_compat_r; assumption.
Qed.

(** ** The payment covers the principal (C8) *)

Lemma zero_rate_ignores_pow pow pow' P term :
  Binary64.calculateMonthlyPayment pow P term 0
  = Binary64.calculateMonthlyPayment pow' P term 0.
Proof. reflexivity. Qed.

(** C8, as stated, fails on the doubles the service computes with: at a
    zero rate, a principal of 100000 over 7 years gives a payment whose
    product with 12 and 7 is 99999.99999999999, one rounding step below the
    principal, whether the product is taken as [(payment * 12) * 7] or as
    [payment * (12 * 7)]. *)
Lemma binary64_payment_under_covers :
  Binary64.coversPrincipal Binary64.unusedPow 100000 7 0 = false /\
  ((Binary64.calculateMonthlyPayment Binary64.unusedPow 100000 7 0 * 12 * 7
    <? 100000)%float = true) /\
  ((Binary64.calculateMonthlyPayment Binary64.unusedPow 100000 7 0 * (12 * 7)
    <? 100000)%float = true).
Proof. repeat split; vm_compute; reflexivity. Qed.

(** C8, amended: in exact arithmetic, for every rate >= 0, every whole term
    >= 1 and every principal P >= 0, [calculateMonthlyPayment] returns a
    finite payment and [payment * 12 * term >= P]. *)
Theorem payment_covers_principal_exactly P term rate :
  0 <= rate -> (1 <= term)%Z -> 0 <= P ->
  exists m,
    calculateMonthlyPayment P term rate = Some m /\
    P <= m * 12 * inject_Z term.
Proof.
  intros Hrate Hterm HP.
  destruct (calculateMonthlyPayment_value P term rate Hrate Hterm)
    as (m & E & V).
  exists m. split; [exact E|].
  pose proof (monthlyRate_nonneg rate Hrate) as Hr.
  assert (Hx : 1 <= 1 + rate / 100 / 12) by lra.
  pose proof (PowerFacts.geomN_le _ (monthsN term) Hx) as Hle.
  pose proof (PowerFacts.geomN_pos _ (monthsN term) Hx (monthsN_pos term Hterm))
    as Hg.
  rewrite (totalMonths_nat term Hterm) in Hle.
  assert (HN : inject_Z (term * 12) == 12 * inject_Z term).
  { rewrite inject_Z_mult. change (inject_Z 12) with 12. ring. }
  rewrite HN in Hle.
  set (g := geomN (1 + rate / 100 / 12) (monthsN term)) in *.
  set (q := powN (1 + rate / 100 / 12) (monthsN term)) in *.
  apply Qmult_le_cancel_pos with g; [exact Hg|].
  setoid_replace (m * 12 * inject_Z term * g)
    with (m * g * (12 * inject_Z term)) by ring.
  rewrite V.
  setoid_replace (P * q * (12 * inject_Z term))
    with (P * (12 * inject_Z term * q)) by ring.
  rewrite !(Qmult_comm P). apply Qmult_le_compat_r; assumption.
Qed.

Lemma payment_covers_principal_exactly_witness :
  exists m,
    calculateMonthlyPayment 100000 7 0 = Some m /\
    100000 <= m * 12 * inject_Z 7.
Proof.
  apply (payment_covers_principal_exactly 100000 7 0).
  - vm_compute. discriminate.
  - lia.
  - vm_compute. discriminate.
Defined.

(** ** The payment-target solver (C7) *)

Lemma half_scaled a b : (a + b) / 2 == (a + b) * (1 # 2).
Proof. field. Qed.

Lemma Qabs_small x d : - d <= x -> x <= d -> Qabs x <= d.
Proof. intros H1 H2. apply Qabs_Qle_condition. split; assumption. Qed.

Lemma Qabs_not_lt x d : ~ Qabs x < d -> 0 <= x -> d <= x.
Proof.
  intros H Hx. rewrite Qabs_pos in H by exact Hx. now apply Qnot_lt_le.
Qed.

(** The loop keeps the sought rate inside the bracket, halves the bracket
    at every pass, and so ends either on a payment within the tolerance or
    on a bracket no wider than 0.0001. *)
Lemma suggestedRateLoop_sound remaining : forall P term target r low high,
  0 <= P -> (1 <= term)%Z ->
  calculateMonthlyPayment P term r = Some target ->
  0 <= low -> low <= r -> r <= high ->
  high - low <= (1 # 10000) * powN 2 remaining ->
  exists rho,
    suggestedRateLoop remaining P (term * 12) target low high
                      ((low + high) / 2) = Some rho /\
    (low <= rho /\ rho <= high) /\
    (Qabs (rho - r) <= 1 # 10000 \/
     exists m, calculateMonthlyPayment P term rho = Some m /\
               Qabs (m - target) < 1 # 100).
Proof.
  induction remaining as [|k IH];
    intros P term target r low high HP Hterm Et Hlow Hlr Hrh Hw;
    pose proof (half_scaled low high) as Hmid;
    set (mid := (low + high) / 2) in *.
  - exists mid. split; [reflexivity|]. simpl in Hw.
    split; [split; lra|]. left. apply Qabs_small; lra.
  - cbn [suggestedRateLoop].
    destruct (Qltb (1 # 10000) (high - low)) eqn:G.
    2:{ apply Qltb_false in G. exists mid. split; [reflexivity|].
        split; [split; lra|]. left. apply Qabs_small; lra. }
    assert (Hmid0 : 0 <= mid) by lra.
    destruct (calculateMonthlyPayment_value P term mid Hmid0 Hterm)
      as (calc & Ec & _).
    change (if Qeq_bool (mid / 100 / 12) 0
            then divide P (inject_Z (term * 12))
            else levelPayment P (mid / 100 / 12) (term * 12))
      with (calculateMonthlyPayment P term mid).
    rewrite Ec. cbn [bind].
    destruct (Qltb (Qabs (calc - target)) (1 # 100)) eqn:T.
    { apply Qltb_true in T. exists mid. split; [reflexivity|].
      split; [split; lra|]. right. exists calc. split; assumption. }
    apply Qltb_false in T.
    cbn [powN] in Hw.
    destruct (Qltb calc target) eqn:C.
    + apply Qltb_true in C.
      assert (Hmr : mid <= r).
      { apply Qnot_lt_le. intro Hlt.
        pose proof (calculateMonthlyPayment_mono P term r mid target calc
                      HP Hterm ltac:(lra) ltac:(lra) Et Ec).
        lra. }
      destruct (IH P term target r mid high HP Hterm Et Hmid0 Hmr Hrh)
        as (rho & E & (R1 & R2) & D); [lra|].
      exists rho. split; [exact E|]. split; [split; lra | exact D].
    + apply Qltb_false in C.
      assert (Hgap : (1 # 100) <= calc - target).
      { apply Qabs_not_lt; [|lra]. intro H. lra. }
      assert (Hrm : r <= mid).
      { apply Qnot_lt_le. intro Hlt.
        pose proof (calculateMonthlyPayment_mono P term mid r calc target
                      HP Hterm Hmid0 ltac:(lra) Ec Et).
        lra. }
      destruct (IH P term target r low mid HP Hterm Et Hlow Hlr Hrm)
        as (rho & E & (R1 & R2) & D); [lra|].
      exists rho. split; [exact E|]. split; [split; lra | exact D].
Qed.

(** C7, as stated, fails: the solver stops as soon as the payment is within
    0.01 of the target, which for a small loan happens far from the rate
    sought.  For a loan of 100 over one year at 20% it returns 19.84375. *)
Lemma solver_misses_rate_of_small_loan :
  exists target rho,
    calculateMonthlyPayment 100 1 20 = Some target /\
    calculateSuggestedRate 100 1 target = Some rho /\
    rho == 635 # 32 /\
    ~ Qabs (rho - 20) <= 1 # 100.
Proof.
  eexists. eexists.
  split; [vm_compute; reflexivity|].
  split; [vm_compute; reflexivity|].
  split; [vm_compute; reflexivity|].
  vm_compute. intro H. apply H. reflexivity.
Qed.

(** C7, amended: for P > 0, a whole term of at least one year and a rate r
    in [0, 20], in exact arithmetic, the solver fed with the closed-form
    payment returns a rate in [0, 20] that either lies within 0.0001 of r
    or gives a payment within 0.01 of the target. *)
Theorem solver_round_trip P term r :
  0 < P -> (1 <= term)%Z -> 0 <= r -> r <= 20 ->
  exists target rho,
    calculateMonthlyPayment P term r = Some target /\
    calculateSuggestedRate P term target = Some rho /\
    (0 <= rho /\ rho <= 20) /\
    (Qabs (rho - r) <= 1 # 10000 \/
     exists m, calculateMonthlyPayment P term rho = Some m /\
               Qabs (m - target) < 1 # 100).
Proof.
  intros HP Hterm Hr0 Hr20.
  destruct (calculateMonthlyPayment_value P term r Hr0 Hterm)
    as (target & Et & _).
  assert (E0 : calculateMonthlyPayment P term 0
               = Some (P / inject_Z (term * 12))).
  { unfold calculateMonthlyPayment.
    change (Qeq_bool (0 / 100 / 12) 0) with true. cbv iota.
    apply divide_nonzero, inject_Z_nonzero. lia. }
  assert (Hfloor : P / inject_Z (term * 12) <= target).
  { apply (calculateMonthlyPayment_mono P term 0 r); try assumption; lra. }
  exists target. unfold calculateSuggestedRate.
  rewrite (divide_nonzero P (inject_Z (term * 12)))
    by (apply inject_Z_nonzero; lia).
  cbn [bind].
  destruct (Qle_bool target (P / inject_Z (term * 12))) eqn:L.
  - apply Qle_bool_iff in L. exists 0.
    split; [exact Et|]. split; [reflexivity|]. split; [split; lra|].
    right. exists (P / inject_Z (term * 12)). split; [exact E0|].
    assert (Hz : P / inject_Z (term * 12) - target == 0) by lra.
    rewrite Hz. reflexivity.
  - destruct (suggestedRateLoop_sound 100 P term target r 0 20)
      as (rho & E & R & D); try assumption; try lra.
    + vm_compute. discriminate.
    + exists rho. split; [exact Et|]. split; [exact E|].
      split; [exact R | exact D].
Qed.

Lemma solver_round_trip_witness :
  exists target rho,
    calculateMonthlyPayment 300000 30 (65 # 10) = Some target /\
    calculateSuggestedRate 300000 30 target = Some rho /\
    (0 <= rho /\ rho <= 20) /\
    (Qabs (rho - (65 # 10)) <= 1 # 10000 \/
     exists m, calculateMonthlyPayment 300000 30 rho = Some m /\
               Qabs (m - target) < 1 # 100).
Proof.
  apply (solver_round_trip 300000 30 (65 # 10)).
  - reflexivity.
  - lia.
  - vm_compute. discriminate.
  - vm_compute. discriminate.
Defined.

(** ** A larger recurring extra payment (C4) *)

Module ExtraPayment.
Import Loop.

(** The three ways through the loop body. *)
Lemma body_cases e s :
  let mc := (monthCount s + 1)%Z in
  let b := afterOneTime e mc (balance s) in
  let x := if applyExtraPayment e mc then extraPayment e else 0 in
  let ip := b * monthlyRate e in
  let future := (monthsElapsed e <? mc)%Z in
  (oneTimeDue e mc = true /\ b == 0 /\
   exists s', body e s = Break s' /\ monthCount s' = mc /\
              totalInterest s' = totalInterest s /\
              futureInterest s' = futureInterest s)
  \/
  (b <= principalAndInterest e - ip + x /\
   exists s', body e s = Break s' /\ monthCount s' = mc /\
              totalInterest s' = totalInterest s + ip /\
              futureInterest s'
              = (if future then futureInterest s + ip else futureInterest s))
  \/
  (principalAndInterest e - ip + x < b /\
   (oneTimeDue e mc = false \/ ~ b == 0) /\
   exists s', body e s = Next s' /\ monthCount s' = mc /\
              balance s' = b - (principalAndInterest e - ip + x) /\
              totalInterest s' = totalInterest s + ip /\
              futureInterest s'
              = (if future then futureInterest s + ip else futureInterest s)).
Proof.
  intros mc b x ip future. unfold body. fold mc. fold b. fold x.
  destruct (oneTimeDue e mc && Qeq_bool b 0) eqn:D.
  - left. apply andb_true_iff in D as [D1 D2]. apply Qeq_bool_iff in D2.
    repeat split; try assumption. eexists. repeat split.
  - assert (Hd : oneTimeDue e mc = false \/ ~ b == 0).
    { apply andb_false_iff in D as [D|D]; [now left|].
      right. now apply Qeq_bool_false. }
    fold ip. destruct (Qle_bool b (principalAndInterest e - ip + x)) eqn:L.
    + right. left. apply Qle_bool_iff in L. split; [exact L|].
      eexists. repeat split.
    + right. right. apply Qle_bool_false in L. split; [exact L|].
      split; [exact Hd|]. eexists. repeat split.
Qed.

Lemma guard_balance e s : guard e s = true -> 0 < balance s.
Proof.
  unfold guard. intro G. apply andb_true_iff in G as [G _].
  now apply Qltb_true.
Qed.

(** With a rate that is not negative the counters only grow. *)
Lemma run_grows fuel : forall e s,
  0 <= monthlyRate e ->
  (monthCount s <= monthCount (run fuel e s))%Z /\
  totalInterest s <= totalInterest (run fuel e s) /\
  futureInterest s <= futureInterest (run fuel e s).
Proof.
  induction fuel as [|n IH]; intros e s Hr; cbn [run].
  - split; [lia|]. split; lra.
  - destruct (guard e s) eqn:G; [|split; [lia|]; split; lra].
    apply guard_balance in G.
    pose proof (BalanceFacts.afterOneTime_nonneg e (monthCount s + 1) _
                  (Qlt_le_weak _ _ G)) as Hb.
    pose proof (Qmult_le_0_compat _ _ Hb Hr) as Hip.
    destruct (body_cases e s)
      as [(_&_&s'&B&Hm&Hti&Hfi) | [(_&s'&B&Hm&Hti&Hfi)
                                  | (_&_&s'&B&Hm&_&Hti&Hfi)]];
      rewrite B.
    + rewrite Hm, Hti, Hfi. split; [lia|]. split; lra.
    + rewrite Hm, Hti, Hfi. split; [lia|].
      split; [lra|]. destruct (_ <? _)%Z; lra.
    + destruct (IH e s' Hr) as (I1&I2&I3).
      rewrite Hm, Hti in *. rewrite Hfi in I3. split; [lia|].
      split; [lra|]. destruct (_ <? _)%Z; lra.
Qed.

Section TwoLoans.

(** Two runs that differ in the recurring extra payment only. *)
Variables e1 e2 : env.
Hypothesis rate_nonneg : 0 <= monthlyRate e1.
Hypothesis same_rate : monthlyRate e2 = monthlyRate e1.
Hypothesis same_months : totalMonths e2 = totalMonths e1.
Hypothesis same_payment : principalAndInterest e2 = principalAndInterest e1.
Hypothesis same_elapsed : monthsElapsed e2 = monthsElapsed e1.
Hypothesis same_oneTime : oneTimeExtraPayments e2 = oneTimeExtraPayments e1.
Hypothesis same_continue : continueExtraPayments e2 = continueExtraPayments e1.
Hypothesis more_extra : extraPayment e1 <= extraPayment e2.

Lemma same_due mc : oneTimeDue e2 mc = oneTimeDue e1 mc.
Proof. unfold oneTimeDue. now rewrite same_elapsed, same_oneTime. Qed.

Lemma same_apply mc : applyExtraPayment e2 mc = applyExtraPayment e1 mc.
Proof. unfold applyExtraPayment. now rewrite same_elapsed, same_continue. Qed.

Lemma afterOneTime_mono mc b1 b2 :
  b2 <= b1 -> afterOneTime e2 mc b2 <= afterOneTime e1 mc b1.
Proof.
  intro H. unfold afterOneTime. rewrite same_due, same_oneTime.
  destruct (oneTimeDue e1 mc); [|exact H].
  destruct (Math_max_spec 0 (b1 - oneTimeExtraPayments e1)) as [[? ->]|[? ->]];
    destruct (Math_max_spec 0 (b2 - oneTimeExtraPayments e1)) as [[? ->]|[? ->]];
    lra.
Qed.

Lemma run_noLater fuel : forall s1 s2,
  ahead s2 s1 -> noLater (run fuel e2 s2) (run fuel e1 s1).
Proof.
  induction fuel as [|n IH]; intros s1 s2 (Hm&Hb&Hti&Hfi).
  - simpl. split; [lia|]. split; assumption.
  - cbn [run].
    destruct (guard e2 s2) eqn:G2.
    2:{ destruct (run_grows (S n) e1 s1 rate_nonneg) as (I1&I2&I3).
        cbn [run] in I1, I2, I3.
        split; [lia|]. split; lra. }
    assert (G1 : guard e1 s1 = true).
    { unfold guard in *. apply andb_true_iff in G2 as [Ga Gb].
      apply Qltb_true in Ga. apply Z.ltb_lt in Gb.
      apply andb_true_iff. split.
      - apply Qltb_true. lra.
      - apply Z.ltb_lt. rewrite <- same_months, <- Hm. exact Gb. }
    rewrite G1.
    apply guard_balance in G1. apply guard_balance in G2.
    pose proof (afterOneTime_mono (monthCount s1 + 1) _ _ Hb) as Hbb.
    pose proof (BalanceFacts.afterOneTime_nonneg e2 (monthCount s1 + 1) _
                  (Qlt_le_weak _ _ G2)) as Hb2.
    pose proof (BalanceFacts.afterOneTime_nonneg e1 (monthCount s1 + 1) _
                  (Qlt_le_weak _ _ G1)) as Hb1.
    pose proof (body_cases e1 s1) as C1.
    pose proof (body_cases e2 s2) as C2.
    cbv zeta in C1, C2.
    rewrite Hm, same_rate, same_payment, same_elapsed, same_due, same_apply
      in C2.
    set (mc := (monthCount s1 + 1)%Z) in *.
    set (b1 := afterOneTime e1 mc (balance s1)) in *.
    set (b2 := afterOneTime e2 mc (balance s2)) in *.
    set (r := monthlyRate e1) in *.
    assert (Hx : (if applyExtraPayment e1 mc then extraPayment e1 else 0)
                 <= (if applyExtraPayment e1 mc then extraPayment e2 else 0))
      by (destruct (applyExtraPayment e1 mc); lra).
    set (x1 := if applyExtraPayment e1 mc then extraPayment e1 else 0) in *.
    set (x2 := if applyExtraPayment e1 mc then extraPayment e2 else 0) in *.
    assert (Hp2 : 0 <= b2 * r) by (apply Qmult_le_0_compat; assumption).
    assert (Hp1 : 0 <= b1 * r) by (apply Qmult_le_0_compat; assumption).
    assert (Hp : b2 * r <= b1 * r) by (apply Qmult_le_compat_r; assumption).
    destruct C2 as [(D2&Z2&t2&B2&M2&T2&F2) | [(L2&t2&B2&M2&T2&F2)
                   | (L2&N2&t2&B2&M2&Bal2&T2&F2)]]; rewrite B2;
    destruct C1 as [(D1&Z1&t1&B1&M1&T1&F1) | [(L1&t1&B1&M1&T1&F1)
                   | (L1&N1&t1&B1&M1&Bal1&T1&F1)]]; rewrite B1.
    + (* both stop on the one-time payment *)
      split; [lia|]. rewrite T1, T2, F1, F2. split; lra.
    + split; [lia|]. rewrite T1, T2, F1, F2. split; [lra|].
      destruct (_ <? _)%Z; lra.
    + destruct (run_grows n e1 t1 rate_nonneg) as (I1&I2&I3).
      split; [lia|]. rewrite T2, F2. rewrite T1 in I2. rewrite F1 in I3.
      fold r in I2, I3. split; [lra|].
      destruct (_ <? _)%Z; lra.
    + (* loan 1 stops on the one-time payment, so loan 2 owed nothing *)
      assert (Hz : b1 * r == 0) by (rewrite Z1; ring).
      split; [lia|]. rewrite T1, T2, F1, F2. split; [lra|].
      destruct (_ <? _)%Z; lra.
    + split; [lia|]. rewrite T1, T2, F1, F2. split; [lra|].
      destruct (_ <? _)%Z; lra.
    + destruct (run_grows n e1 t1 rate_nonneg) as (I1&I2&I3).
      split; [lia|]. rewrite T2, F2. rewrite T1 in I2. rewrite F1 in I3.
      fold r in I2, I3. split; [lra|].
      destruct (_ <? _)%Z; lra.
    + exfalso. destruct N2 as [N2|N2]; [congruence|]. apply N2. lra.
    + exfalso. lra.
    + apply IH. split; [lia|]. rewrite Bal1, Bal2, T1, T2, F1, F2.
      split; [lra|]. split; [lra|]. destruct (_ <? _)%Z; lra.
Qed.

End TwoLoans.

End ExtraPayment.

(** C4: with a rate that is not negative, replacing [extraPayment] by any
    larger value, every other field fixed, never increases the
    [monthsToPayout] nor the [totalInterestPaid] that [calculateLoan]
    returns. *)
Theorem more_extra_never_costs_more loan today x :
  0 <= interestRate loan ->
  extraPayment loan <= x ->
  (monthsToPayout (calculateLoan (withExtraPayment loan x) today)
   <= monthsToPayout (calculateLoan loan today))%Z /\
  totalInterestPaid (calculateLoan (withExtraPayment loan x) today)
  <= totalInterestPaid (calculateLoan loan today).
Proof.
  intros Hr Hx. unfold calculateLoan, calculateLoanWith.
  change (early (withExtraPayment loan x) today) with (early loan today).
  change (openingBalance (withExtraPayment loan x) today)
    with (openingBalance loan today).
  change (elapsed (withExtraPayment loan x) today) with (elapsed loan today).
  change (cap (withExtraPayment loan x)) with (cap loan).
  change (initial (withExtraPayment loan x)) with (initial loan).
  destruct (early loan today && Qeq_bool (openingBalance loan today) 0).
  { simpl. split; [lia | lra]. }
  destruct (ExtraPayment.run_noLater
              (envOf loan today) (envOf (withExtraPayment loan x) today))
    with (fuel := cap loan)
         (s1 := initial loan (openingBalance loan today))
         (s2 := initial loan (openingBalance loan today))
    as (Hm & Hti & Hfi); try reflexivity.
  - simpl. now apply monthlyRate_nonneg.
  - simpl. rewrite !or0_eq. exact Hx.
  - split; [reflexivity|]. split; [lra|]. split; lra.
  - unfold report. cbn [monthsToPayout totalInterestPaid]. unfold Math_maxZ.
    destruct (0 <? elapsed loan today)%Z, (elapsed loan today <=? 0)%Z;
      (split; [lia | assumption]).
Qed.

Lemma more_extra_never_costs_more_witness :
  (monthsToPayout (calculateLoan (withExtraPayment acceleratedLoan 500)
                                 november2026)
   <= monthsToPayout (calculateLoan acceleratedLoan november2026))%Z /\
  totalInterestPaid (calculateLoan (withExtraPayment acceleratedLoan 500)
                                   november2026)
  <= totalInterestPaid (calculateLoan acceleratedLoan november2026).
Proof.
  apply (more_extra_never_costs_more acceleratedLoan november2026 500).
  - vm_compute. discriminate.
  - vm_compute. discriminate.
Defined.

(** * Further properties of the service *)

(** ** What [calculateLoan] reports *)

Module ReportFacts.
Import Loop.

(** With an extra payment that is not negative the extra-payment totals
    only grow. *)
Lemma body_extra_nonneg e s :
  0 <= extraPayment e ->
  totalExtraPayment s <= totalExtraPayment (final (body e s)) /\
  futureExtraPayment s <= futureExtraPayment (final (body e s)).
Proof.
  intro Hx. unfold body.
  destruct (oneTimeDue e _ && Qeq_bool _ 0); [simpl; split; lra|].
  set (b := afterOneTime e (monthCount s + 1) (balance s)).
  assert (Hx' : 0 <= (if applyExtraPayment e (monthCount s + 1)
                      then extraPayment e else 0))
    by (destruct (applyExtraPayment e _); lra).
  destruct (Qle_bool _ _); simpl.
  - destruct (Qltb 0 _) eqn:F; [apply Qltb_true in F|];
      destruct (_ <? _)%Z; split; lra.
  - destruct (_ <? _)%Z; split; lra.
Qed.

Lemma run_extra_nonneg fuel : forall e s,
  0 <= extraPayment e ->
  totalExtraPayment s <= totalExtraPayment (run fuel e s) /\
  futureExtraPayment s <= futureExtraPayment (run fuel e s).
Proof.
  induction fuel as [|n IH]; intros e s Hx; cbn [run]; [split; lra|].
  destruct (guard e s); [|split; lra].
  pose proof (body_extra_nonneg e s Hx) as [H1 H2].
  destruct (body e s) as [s'|s']; simpl in H1, H2; [split; assumption|].
  destruct (IH e s' Hx). split; lra.
Qed.

(** On a started loan whose extra payments are not continued, no extra
    payment is counted from today on. *)
Lemma body_no_future_extra e s :
  (0 < monthsElapsed e)%Z -> continueExtraPayments e = false ->
  futureExtraPayment s == 0 ->
  futureExtraPayment (final (body e s)) == 0.
Proof.
  intros Hme Hc Hf. unfold body.
  destruct (oneTimeDue e _ && Qeq_bool _ 0); [exact Hf|].
  set (mc := (monthCount s + 1)%Z).
  set (b := afterOneTime e mc (balance s)).
  destruct (monthsElapsed e <? mc)%Z eqn:F.
  - apply Z.ltb_lt in F.
    assert (Ha : applyExtraPayment e mc = false).
    { unfold applyExtraPayment. rewrite Hc.
      destruct (monthsElapsed e =? 0)%Z eqn:E1; [apply Z.eqb_eq in E1; lia|].
      destruct (mc <=? monthsElapsed e)%Z eqn:E2;
        [apply Z.leb_le in E2; lia | reflexivity]. }
    rewrite Ha.
    destruct (Qle_bool _ _) eqn:L; simpl.
    + apply Qle_bool_iff in L.
      assert (G : Qltb 0 (b - (principalAndInterest e - b * monthlyRate e))
                  = false) by (apply Qltb_false; lra).
      rewrite G, Hf. ring.
    + rewrite Hf. ring.
  - destruct (Qle_bool _ _); exact Hf.
Qed.

Lemma run_no_future_extra fuel : forall e s,
  (0 < monthsElapsed e)%Z -> continueExtraPayments e = false ->
  futureExtraPayment s == 0 ->
  futureExtraPayment (run fuel e s) == 0.
Proof.
  induction fuel as [|n IH]; intros e s Hme Hc Hf; cbn [run]; [exact Hf|].
  destruct (guard e s); [|exact Hf].
  pose proof (body_no_future_extra e s Hme Hc Hf) as H.
  destruct (body e s) as [s'|s']; simpl in H; [exact H|]. now apply IH.
Qed.

(** A loop that is never entered leaves the locals as they were. *)
Lemma run_not_entered fuel e s : guard e s = false -> run fuel e s = s.
Proof. intro G. destruct fuel; simpl; [reflexivity|]. now rewrite G. Qed.

End ReportFacts.

Lemma early_no_elapsed loan today :
  early loan today = true -> elapsed loan today = 0%Z.
Proof.
  unfold early. intro E. apply andb_true_iff in E as [E _].
  now apply Z.eqb_eq.
Qed.

Lemma elapsed_nonneg loan today : (0 <= elapsed loan today)%Z.
Proof. unfold elapsed, Math_maxZ. lia. Qed.

(** X1: with a rate and a recurring extra payment that are not negative,
    the [totalInterestPaid] and the [totalExtraPayment] that [calculateLoan]
    returns are never negative. *)
Theorem reported_totals_nonneg loan today :
  0 <= interestRate loan ->
  0 <= extraPayment loan ->
  0 <= oneTimeExtraPayments loan ->
  0 <= totalInterestPaid (calculateLoan loan today) /\
  0 <= totalExtraPayment (calculateLoan loan today).
Proof.
  intros Hr Hx Ho. unfold calculateLoan, calculateLoanWith.
  destruct (early loan today && Qeq_bool _ 0).
  { simpl. rewrite or0_eq. split; [lra | exact Ho]. }
  set (e := envOf loan today).
  set (s := initial loan (openingBalance loan today)).
  assert (Hre : 0 <= Loop.monthlyRate e) by (now apply monthlyRate_nonneg).
  assert (Hxe : 0 <= Loop.extraPayment e) by (simpl; now rewrite or0_eq).
  destruct (ExtraPayment.run_grows (cap loan) e s Hre) as (_ & Hti & Hfi).
  destruct (ReportFacts.run_extra_nonneg (cap loan) e s Hxe) as (Hte & Hfe).
  simpl in Hti, Hfi, Hte, Hfe.
  unfold report. cbn [totalInterestPaid totalExtraPayment].
  destruct (0 <? elapsed loan today)%Z, (elapsed loan today <=? 0)%Z;
    split; assumption.
Qed.

Lemma reported_totals_nonneg_witness :
  0 <= totalInterestPaid (calculateLoan acceleratedLoan november2026) /\
  0 <= totalExtraPayment (calculateLoan acceleratedLoan november2026).
Proof.
  apply (reported_totals_nonneg acceleratedLoan november2026).
  - vm_compute. discriminate.
  - vm_compute. discriminate.
  - vm_compute. discriminate.
Defined.

(** X2: for a term that is not negative, the [monthsToPayout] that
    [calculateLoan] returns lies between 0 and the safety cap,
    [2 * loanLengthYears * 12]. *)
Theorem monthsToPayout_within_cap loan today :
  (0 <= loanLengthYears loan)%Z ->
  (0 <= monthsToPayout (calculateLoan loan today)
   <= loanLengthYears loan * 12 * 2)%Z.
Proof.
  intro Hy. unfold calculateLoan, calculateLoanWith.
  destruct (early loan today && Qeq_bool _ 0); [simpl; lia|].
  pose proof (LoopFacts.run_monthCount_le (cap loan) (envOf loan today)
                (initial loan (openingBalance loan today))) as H.
  simpl in H. specialize (H ltac:(lia)).
  unfold report. cbn [monthsToPayout]. unfold Math_maxZ.
  pose proof (elapsed_nonneg loan today).
  destruct (0 <? elapsed loan today)%Z; lia.
Qed.

Lemma monthsToPayout_within_cap_witness :
  (0 <= monthsToPayout (calculateLoan slowPayer november2026) <= 1 * 12 * 2)%Z.
Proof.
  apply (monthsToPayout_within_cap slowPayer november2026).
  vm_compute. discriminate.
Defined.

(** X3: when nothing is owed or the term is empty (loan amount or term in
    years zero or negative) the loop is never entered: [calculateLoan]
    returns [monthsToPayout = 0], no interest, and a total amount paid
    equal to the loan amount. *)
Theorem nothing_to_amortize loan today :
  loanAmount loan <= 0 \/ (loanLengthYears loan <= 0)%Z ->
  monthsToPayout (calculateLoan loan today) = 0%Z /\
  totalInterestPaid (calculateLoan loan today) == 0 /\
  totalAmountPaid (calculateLoan loan today) == loanAmount loan.
Proof.
  intro H. unfold calculateLoan, calculateLoanWith.
  destruct (early loan today && Qeq_bool _ 0) eqn:E.
  { simpl. repeat split; reflexivity. }
  assert (G : Loop.guard (envOf loan today)
                (initial loan (openingBalance loan today)) = false).
  { unfold Loop.guard. apply andb_false_iff. destruct H as [H|H].
    - left. apply Qltb_false. simpl. unfold openingBalance.
      destruct (early loan today) eqn:E1; [|exact H].
      simpl in E. apply Qeq_bool_false in E.
      unfold openingBalance in E. rewrite E1 in E.
      destruct (Math_max_spec 0 (loanAmount loan
                                 - or0 (oneTimeExtraPayments loan)))
        as [[H1 H2]|[H1 H2]]; rewrite H2 in *.
      + unfold early in E1. apply andb_true_iff in E1 as [_ E1].
        apply Qltb_true in E1. lra.
      + lra.
    - right. apply Z.ltb_ge. simpl. lia. }
  rewrite (ReportFacts.run_not_entered _ _ _ G).
  unfold report, initial. cbn. unfold Math_maxZ.
  pose proof (elapsed_nonneg loan today).
  destruct (0 <? elapsed loan today)%Z eqn:E1;
    destruct (elapsed loan today <=? 0)%Z eqn:E2;
    repeat split; try lia; try ring; reflexivity.
Qed.

Lemma nothing_to_amortize_witness :
  monthsToPayout (calculateLoan (mkLoanData 0 30 (65 # 10) november2026
                                   2100 400 0 0 0 false) november2026) = 0%Z.
Proof.
  apply (nothing_to_amortize (mkLoanData 0 30 (65 # 10) november2026
                                2100 400 0 0 0 false) november2026).
  left. vm_compute. discriminate.
Defined.

(** X4: on a loan that has started, with [continueExtraPayments] false,
    the [totalExtraPayment] that [calculateLoan] returns is 0: the
    recurring extra payment is applied to the past months only and none is
    counted from today on. *)
Theorem discontinued_extra_not_counted loan today :
  (0 < elapsed loan today)%Z ->
  continueExtraPayments loan = false ->
  totalExtraPayment (calculateLoan loan today) == 0.
Proof.
  intros Hme Hc. unfold calculateLoan, calculateLoanWith.
  destruct (early loan today) eqn:E.
  { apply early_no_elapsed in E. lia. }
  cbn [andb]. unfold report. cbn [totalExtraPayment].
  apply Z.ltb_lt in Hme as Hlt. rewrite Hlt.
  assert (Hle : (elapsed loan today <=? 0)%Z = false) by (apply Z.leb_gt; lia).
  rewrite Hle.
  apply ReportFacts.run_no_future_extra; [exact Hme | exact Hc | reflexivity].
Qed.

Lemma discontinued_extra_not_counted_witness :
  totalExtraPayment
    (calculateLoan (mkLoanData 12000 1 12 (mkDate 2026 4 2) 1100 0 100 0 0 false)
                   november2026) == 0.
Proof.
  apply (discontinued_extra_not_counted
           (mkLoanData 12000 1 12 (mkDate 2026 4 2) 1100 0 100 0 0 false)
           november2026).
  - reflexivity.
  - reflexivity.
Defined.

(** ** Paying more never costs more *)

Module PayingMore.
Import Loop.

Section TwoLoans.

(** Two runs of the loop on the same balance sheet, the second with a
    payment, a recurring extra payment and a one-time payment at least as
    large as the first. *)
Variables e1 e2 : env.
Hypothesis rate_nonneg : 0 <= monthlyRate e1.
Hypothesis same_rate : monthlyRate e2 = monthlyRate e1.
Hypothesis same_months : totalMonths e2 = totalMonths e1.
Hypothesis same_elapsed : monthsElapsed e2 = monthsElapsed e1.
Hypothesis same_continue : continueExtraPayments e2 = continueExtraPayments e1.
Hypothesis more_payment : principalAndInterest e1 <= principalAndInterest e2.
Hypothesis more_extra : extraPayment e1 <= extraPayment e2.
Hypothesis more_oneTime : oneTimeExtraPayments e1 <= oneTimeExtraPayments e2.

Lemma due_mono mc : oneTimeDue e1 mc = true -> oneTimeDue e2 mc = true.
Proof.
  unfold oneTimeDue. rewrite same_elapsed. intro H.
  apply andb_true_iff in H as [H1 H2]. rewrite H1. simpl.
  apply Qltb_true in H2. apply Qltb_true. lra.
Qed.

Lemma apply_alike mc : applyExtraPayment e2 mc = applyExtraPayment e1 mc.
Proof. unfold applyExtraPayment. now rewrite same_elapsed, same_continue. Qed.

Lemma afterOneTime_no_larger mc b1 b2 :
  0 <= b2 -> b2 <= b1 -> afterOneTime e2 mc b2 <= afterOneTime e1 mc b1.
Proof.
  intros H0 H. unfold afterOneTime.
  destruct (oneTimeDue e1 mc) eqn:D1.
  - rewrite (due_mono mc D1).
    destruct (Math_max_spec 0 (b1 - oneTimeExtraPayments e1)) as [[? ->]|[? ->]];
      destruct (Math_max_spec 0 (b2 - oneTimeExtraPayments e2))
        as [[? ->]|[? ->]]; lra.
  - destruct (oneTimeDue e2 mc) eqn:D2; [|exact H].
    unfold oneTimeDue in D2. apply andb_true_iff in D2 as [_ D2].
    apply Qltb_true in D2.
    destruct (Math_max_spec 0 (b2 - oneTimeExtraPayments e2))
      as [[? ->]|[? ->]]; lra.
Qed.

Lemma run_never_behind fuel : forall s1 s2,
  ahead s2 s1 -> noLater (run fuel e2 s2) (run fuel e1 s1).
Proof.
  induction fuel as [|n IH]; intros s1 s2 (Hm&Hb&Hti&Hfi).
  - simpl. split; [lia|]. split; assumption.
  - cbn [run].
    destruct (guard e2 s2) eqn:G2.
    2:{ destruct (ExtraPayment.run_grows (S n) e1 s1 rate_nonneg)
          as (I1&I2&I3).
        cbn [run] in I1, I2, I3.
        split; [lia|]. split; lra. }
    assert (G1 : guard e1 s1 = true).
    { unfold guard in *. apply andb_true_iff in G2 as [Ga Gb].
      apply Qltb_true in Ga. apply Z.ltb_lt in Gb.
      apply andb_true_iff. split.
      - apply Qltb_true. lra.
      - apply Z.ltb_lt. rewrite <- same_months, <- Hm. exact Gb. }
    rewrite G1.
    apply ExtraPayment.guard_balance in G1.
    apply ExtraPayment.guard_balance in G2.
    pose proof (afterOneTime_no_larger (monthCount s1 + 1) _ _
                  (Qlt_le_weak _ _ G2) Hb) as Hbb.
    pose proof (BalanceFacts.afterOneTime_nonneg e2 (monthCount s1 + 1) _
                  (Qlt_le_weak _ _ G2)) as Hb2.
    pose proof (BalanceFacts.afterOneTime_nonneg e1 (monthCount s1 + 1) _
                  (Qlt_le_weak _ _ G1)) as Hb1.
    pose proof (ExtraPayment.body_cases e1 s1) as C1.
    pose proof (ExtraPayment.body_cases e2 s2) as C2.
    cbv zeta in C1, C2.
    rewrite Hm, same_rate, same_elapsed, apply_alike in C2.
    pose proof (due_mono (monthCount s1 + 1)) as Hdue.
    set (mc := (monthCount s1 + 1)%Z) in *.
    set (b1 := afterOneTime e1 mc (balance s1)) in *.
    set (b2 := afterOneTime e2 mc (balance s2)) in *.
    set (r := monthlyRate e1) in *.
    assert (Hx : (if applyExtraPayment e1 mc then extraPayment e1 else 0)
                 <= (if applyExtraPayment e1 mc then extraPayment e2 else 0))
      by (destruct (applyExtraPayment e1 mc); lra).
    set (x1 := if applyExtraPayment e1 mc then extraPayment e1 else 0) in *.
    set (x2 := if applyExtraPayment e1 mc then extraPayment e2 else 0) in *.
    assert (Hp2 : 0 <= b2 * r) by (apply Qmult_le_0_compat; assumption).
    assert (Hp1 : 0 <= b1 * r) by (apply Qmult_le_0_compat; assumption).
    assert (Hp : b2 * r <= b1 * r) by (apply Qmult_le_compat_r; assumption).
    destruct C2 as [(D2&Z2&t2&B2&M2&T2&F2) | [(L2&t2&B2&M2&T2&F2)
                   | (L2&N2&t2&B2&M2&Bal2&T2&F2)]]; rewrite B2;
    destruct C1 as [(D1&Z1&t1&B1&M1&T1&F1) | [(L1&t1&B1&M1&T1&F1)
                   | (L1&N1&t1&B1&M1&Bal1&T1&F1)]]; rewrite B1.
    + split; [lia|]. rewrite T1, T2, F1, F2. split; lra.
    + split; [lia|]. rewrite T1, T2, F1, F2. split; [lra|].
      destruct (_ <? _)%Z; lra.
    + destruct (ExtraPayment.run_grows n e1 t1 rate_nonneg) as (I1&I2&I3).
      split; [lia|]. rewrite T2, F2. rewrite T1 in I2. rewrite F1 in I3.
      fold r in I2, I3. split; [lra|].
      destruct (_ <? _)%Z; lra.
    + assert (Hz : b1 * r == 0) by (rewrite Z1; ring).
      split; [lia|]. rewrite T1, T2, F1, F2. split; [lra|].
      destruct (_ <? _)%Z; lra.
    + split; [lia|]. rewrite T1, T2, F1, F2. split; [lra|].
      destruct (_ <? _)%Z; lra.
    + destruct (ExtraPayment.run_grows n e1 t1 rate_nonneg) as (I1&I2&I3).
      split; [lia|]. rewrite T2, F2. rewrite T1 in I2. rewrite F1 in I3.
      fold r in I2, I3. split; [lra|].
      destruct (_ <? _)%Z; lra.
    + exfalso. specialize (Hdue D1).
      destruct N2 as [N2|N2]; [congruence|]. apply N2. lra.
    + exfalso. lra.
    + apply IH. split; [lia|]. rewrite Bal1, Bal2, T1, T2, F1, F2.
      split; [lra|]. split; [lra|]. destruct (_ <? _)%Z; lra.
Qed.

End TwoLoans.

End PayingMore.

(** X5: for two loans with the same amount, term, rate (not negative),
    start date and [continueExtraPayments], the one whose principal-and-
    interest payment ([monthlyPayment - escrow]), recurring extra payment
    and one-time payment are all at least as large never has the larger
    [monthsToPayout] nor the larger [totalInterestPaid]. *)
Theorem paying_more_never_costs_more l1 l2 today :
  loanAmount l2 = loanAmount l1 ->
  loanLengthYears l2 = loanLengthYears l1 ->
  interestRate l2 = interestRate l1 ->
  startDate l2 = startDate l1 ->
  continueExtraPayments l2 = continueExtraPayments l1 ->
  0 <= interestRate l1 ->
  monthlyPayment l1 - escrow l1 <= monthlyPayment l2 - escrow l2 ->
  extraPayment l1 <= extraPayment l2 ->
  oneTimeExtraPayments l1 <= oneTimeExtraPayments l2 ->
  (monthsToPayout (calculateLoan l2 today)
   <= monthsToPayout (calculateLoan l1 today))%Z /\
  totalInterestPaid (calculateLoan l2 today)
  <= totalInterestPaid (calculateLoan l1 today).
Proof.
  intros Ha Hy Hrt Hsd Hc Hr Hpi Hx Ho.
  assert (Hel : elapsed l2 today = elapsed l1 today)
    by (unfold elapsed; now rewrite Hsd).
  assert (Hcap : cap l2 = cap l1) by (unfold cap; now rewrite Hy).
  (* what loan 1 reports is never negative *)
  assert (H1 : (0 <= monthsToPayout (calculateLoan l1 today))%Z /\
               0 <= totalInterestPaid (calculateLoan l1 today)).
  { unfold calculateLoan, calculateLoanWith.
    destruct (early l1 today && Qeq_bool _ 0); [simpl; split; [lia|lra]|].
    destruct (ExtraPayment.run_grows (cap l1) (envOf l1 today)
                (initial l1 (openingBalance l1 today))
                (monthlyRate_nonneg _ Hr)) as (Im & Iti & Ifi).
    simpl in Im, Iti, Ifi.
    unfold report. cbn [monthsToPayout totalInterestPaid]. unfold Math_maxZ.
    destruct (0 <? elapsed l1 today)%Z, (elapsed l1 today <=? 0)%Z;
      split; try lia; assumption. }
  assert (Hearly : early l1 today = true -> early l2 today = true).
  { unfold early. rewrite Hel. intro E. apply andb_true_iff in E as [E1 E2].
    rewrite E1. simpl. apply Qltb_true in E2. apply Qltb_true.
    rewrite or0_eq in *. lra. }
  destruct (early l2 today && Qeq_bool (openingBalance l2 today) 0) eqn:E2.
  { (* loan 2 is retired at once *)
    unfold calculateLoan at 1 3, calculateLoanWith. rewrite E2. simpl.
    exact H1. }
  (* the opening balance of loan 2 is positive or loan 2 pays no lump sum *)
  assert (Hob : openingBalance l2 today <= openingBalance l1 today).
  { unfold openingBalance. rewrite Ha.
    destruct (early l1 today) eqn:F1.
    - rewrite (Hearly eq_refl).
      destruct (Math_max_spec 0 (loanAmount l1 - or0 (oneTimeExtraPayments l1)))
        as [[? ->]|[? ->]];
      destruct (Math_max_spec 0 (loanAmount l1 - or0 (oneTimeExtraPayments l2)))
        as [[? ->]|[? ->]]; rewrite !or0_eq in *; lra.
    - destruct (early l2 today) eqn:F2; [|lra].
      simpl in E2. apply Qeq_bool_false in E2.
      unfold openingBalance in E2. rewrite F2, Ha in E2.
      unfold early in F2. apply andb_true_iff in F2 as [_ F2].
      apply Qltb_true in F2.
      destruct (Math_max_spec 0 (loanAmount l1 - or0 (oneTimeExtraPayments l2)))
        as [[? Hm]|[? Hm]]; rewrite Hm in *; lra. }
  assert (E1 : early l1 today && Qeq_bool (openingBalance l1 today) 0 = false).
  { apply andb_false_iff.
    destruct (early l1 today) eqn:F1; [right | now left].
    apply Qeq_bool_false. intro Hz.
    rewrite (Hearly eq_refl) in E2. simpl in E2. apply Qeq_bool_false in E2.
    apply E2.
    assert (0 <= openingBalance l2 today).
    { unfold openingBalance. rewrite (Hearly eq_refl).
      apply Math_max_0_nonneg. }
    lra. }
  unfold calculateLoan, calculateLoanWith. rewrite E1, E2, Hel, Hcap.
  destruct (PayingMore.run_never_behind (envOf l1 today) (envOf l2 today))
    with (fuel := cap l1)
         (s1 := initial l1 (openingBalance l1 today))
         (s2 := initial l2 (openingBalance l2 today))
    as (Hm & Hti & Hfi); simpl.
  - now apply monthlyRate_nonneg.
  - now rewrite Hrt.
  - now rewrite Hy.
  - exact Hel.
  - exact Hc.
  - rewrite !or0_eq. exact Hpi.
  - rewrite !or0_eq. exact Hx.
  - rewrite !or0_eq. exact Ho.
  - split; [reflexivity|]. simpl. split; [exact Hob|]. split; lra.
  - unfold report. cbn [monthsToPayout totalInterestPaid]. unfold Math_maxZ.
    destruct (0 <? elapsed l1 today)%Z, (elapsed l1 today <=? 0)%Z;
      (split; [lia | assumption]).
Qed.

Lemma paying_more_never_costs_more_witness :
  (monthsToPayout
     (calculateLoan (mkLoanData 12000 1 12 november2026 1300 100 200 1000 0 false)
                    november2026)
   <= monthsToPayout (calculateLoan acceleratedLoan november2026))%Z /\
  totalInterestPaid
    (calculateLoan (mkLoanData 12000 1 12 november2026 1300 100 200 1000 0 false)
                   november2026)
  <= totalInterestPaid (calculateLoan acceleratedLoan november2026).
Proof.
  apply (paying_more_never_costs_more acceleratedLoan
           (mkLoanData 12000 1 12 november2026 1300 100 200 1000 0 false)
           november2026); try reflexivity; vm_compute; discriminate.
Defined.

(** ** The standard schedule *)

Module Schedule.
Import Loop.

Lemma gap_diag x k : gap x k k == 0.
Proof. unfold gap. ring. Qed.

Lemma gap_step_r x k n : gap x k (S n) == x * gap x k n + powN x k.
Proof.
  unfold gap. cbn [geomN powN].
  pose proof (PowerFacts.powN_geom x n) as H.
  assert (Hp : powN x n == 1 + (x - 1) * geomN x n) by lra.
  set (a := powN x k). set (g := geomN x n). set (h := geomN x k).
  fold g in Hp. rewrite Hp. ring.
Qed.


Lemma gap_nonneg x k n : 1 <= x -> (k <= n)%nat -> 0 <= gap x k n.
Proof.
  intros Hx Hkn. induction Hkn as [|n Hkn IH].
  - rewrite gap_diag. lra.
  - rewrite gap_step_r. pose proof (PowerFacts.powN_ge1 x k Hx).
    assert (0 <= x * gap x k n) by (apply Qmult_le_0_compat; lra). lra.
Qed.




Section OnSchedule.

(** A loan that starts today, with no extra payment, paid at the level
    payment [M] of its [n] months. *)
Variable e : env.
Variables P M : Q.
Variable n : nat.
Hypothesis principal_pos : 0 < P.
Hypothesis months_pos : (0 < n)%nat.
Hypothesis rate_nonneg : 0 <= monthlyRate e.
Hypothesis months_n : totalMonths e = Z.of_nat n.
Hypothesis not_started : monthsElapsed e = 0%Z.
Hypothesis no_extra : extraPayment e == 0.
Hypothesis level : principalAndInterest e == M.
Hypothesis level_value :
  M * geomN (1 + monthlyRate e) n == P * powN (1 + monthlyRate e) n.

Let x := 1 + monthlyRate e.
Let B := scheduledBalance P x M.


End OnSchedule.

End Schedule.



(** ** The payment formula *)

(** X7: for a principal that is not negative and a whole term of at least
    one year, [calculateMonthlyPayment] grows with the rate (rates not
    negative, exact arithmetic). *)
Theorem payment_grows_with_rate P term r1 r2 :
  0 <= P -> (1 <= term)%Z -> 0 <= r1 -> r1 <= r2 ->
  exists m1 m2,
    calculateMonthlyPayment P term r1 = Some m1 /\
    calculateMonthlyPayment P term r2 = Some m2 /\
    m1 <= m2.
Proof.
  intros HP Hterm H1 H12.
  destruct (calculateMonthlyPayment_value P term r1 H1 Hterm) as (m1 & E1 & _).
  destruct (calculateMonthlyPayment_value P term r2 ltac:(lra) Hterm)
    as (m2 & E2 & _).
  exists m1, m2. split; [exact E1|]. split; [exact E2|].
  exact (calculateMonthlyPayment_mono P term r1 r2 m1 m2 HP Hterm H1 H12 E1 E2).
Qed.

Lemma payment_grows_with_rate_witness :
  exists m1 m2,
    calculateMonthlyPayment 300000 30 (55 # 10) = Some m1 /\
    calculateMonthlyPayment 300000 30 (65 # 10) = Some m2 /\
    m1 <= m2.
Proof.
  apply (payment_grows_with_rate 300000 30 (55 # 10) (65 # 10)).
  - vm_compute. discriminate.
  - lia.
  - vm_compute. discriminate.
  - vm_compute. discriminate.
Defined.

(** X8: for a principal and a rate that are not negative,
    [calculateMonthlyPayment] never grows when the term gets longer (whole
    terms of at least one year, exact arithmetic). *)
Theorem payment_shrinks_with_term P t1 t2 rate :
  0 <= P -> 0 <= rate -> (1 <= t1)%Z -> (t1 <= t2)%Z ->
  exists m1 m2,
    calculateMonthlyPayment P t1 rate = Some m1 /\
    calculateMonthlyPayment P t2 rate = Some m2 /\
    m2 <= m1.
Proof.
  intros HP Hr H1 H12.
  destruct (calculateMonthlyPayment_value P t1 rate Hr H1) as (m1 & E1 & V1).
  destruct (calculateMonthlyPayment_value P t2 rate Hr ltac:(lia))
    as (m2 & E2 & V2).
  exists m1, m2. split; [exact E1|]. split; [exact E2|].
  pose proof (monthlyRate_nonneg rate Hr) as Hr'.
  assert (Hx : 1 <= 1 + rate / 100 / 12) by lra.
  set (x := 1 + rate / 100 / 12) in *.
  assert (Hn : (monthsN t1 <= monthsN t2)%nat) by (unfold monthsN; lia).
  pose proof (Schedule.gap_nonneg x _ _ Hx Hn) as Hgap. unfold gap in Hgap.
  pose proof (PowerFacts.geomN_pos x _ Hx (monthsN_pos t1 H1)) as G1.
  pose proof (PowerFacts.geomN_pos x _ Hx (monthsN_pos t2 ltac:(lia))) as G2.
  set (n1 := monthsN t1) in *. set (n2 := monthsN t2) in *.
  apply Qmult_le_cancel_pos with (geomN x n1 * geomN x n2).
  - apply Qmult_lt_0_compat; assumption.
  - assert (Ha : m1 * (geomN x n1 * geomN x n2) == P * (powN x n1 * geomN x n2))
      by (rewrite Qmult_assoc, V1; ring).
    assert (Hb : m2 * (geomN x n1 * geomN x n2) == P * (powN x n2 * geomN x n1)).
    { setoid_replace (m2 * (geomN x n1 * geomN x n2))
        with (m2 * geomN x n2 * geomN x n1) by ring.
      rewrite V2. ring. }
    rewrite Ha, Hb, !(Qmult_comm P). apply Qmult_le_compat_r; [lra | exact HP].
Qed.

Lemma payment_shrinks_with_term_witness :
  exists m1 m2,
    calculateMonthlyPayment 300000 15 (65 # 10) = Some m1 /\
    calculateMonthlyPayment 300000 30 (65 # 10) = Some m2 /\
    m2 <= m1.
Proof.
  apply (payment_shrinks_with_term 300000 15 30 (65 # 10)).
  - vm_compute. discriminate.
  - vm_compute. discriminate.
  - lia.
  - lia.
Defined.

(** X9: for a positive principal, a rate that is not negative and a whole
    term of at least one year, the payment of [calculateMonthlyPayment] is
    strictly more than the first month's interest [P * rate / 100 / 12], so
    a loan paid at it starts amortizing at once. *)
Theorem payment_exceeds_first_interest P term rate :
  0 < P -> 0 <= rate -> (1 <= term)%Z ->
  exists m,
    calculateMonthlyPayment P term rate = Some m /\
    P * (rate / 100 / 12) < m.
Proof.
  intros HP Hr Hterm.
  destruct (calculateMonthlyPayment_value P term rate Hr Hterm) as (m & E & V).
  exists m. split; [exact E|].
  pose proof (monthlyRate_nonneg rate Hr) as Hr'.
  assert (Hx : 1 <= 1 + rate / 100 / 12) by lra.
  pose proof (PowerFacts.geomN_pos _ _ Hx (monthsN_pos term Hterm)) as G.
  pose proof (PowerFacts.powN_geom (1 + rate / 100 / 12) (monthsN term)) as Hg.
  set (r := rate / 100 / 12) in *.
  set (g := geomN (1 + r) (monthsN term)) in *.
  set (q := powN (1 + r) (monthsN term)) in *.
  assert (Hq : q == 1 + r * g) by (rewrite <- (Qplus_0_r q); lra).
  rewrite Hq in V.
  apply Qnot_le_lt. intro Hle.
  assert (H0 : (m - P * r) * g <= 0 * g) by (apply Qmult_le_compat_r; lra).
  assert (H1 : (m - P * r) * g == P).
  { setoid_replace ((m - P * r) * g) with (m * g - P * r * g) by ring.
    rewrite V. ring. }
  lra.
Qed.

Lemma payment_exceeds_first_interest_witness :
  exists m,
    calculateMonthlyPayment 300000 30 (65 # 10) = Some m /\
    300000 * ((65 # 10) / 100 / 12) < m.
Proof.
  apply (payment_exceeds_first_interest 300000 30 (65 # 10)).
  - reflexivity.
  - vm_compute. discriminate.
  - lia.
Defined.

(** X10: with a term of zero years [calculateMonthlyPayment] has no finite
    result, whatever the principal and the rate: the code divides by
    [totalMonths = 0] at a zero rate and by [pow(1 + r, 0) - 1 = 0]
    otherwise. *)
Theorem payment_of_empty_term_not_finite P rate :
  calculateMonthlyPayment P 0 rate = None.
Proof.
  unfold calculateMonthlyPayment.
  destruct (Qeq_bool (rate / 100 / 12) 0); [reflexivity|].
  unfold levelPayment, Math_pow. cbn.
  rewrite andb_false_r. reflexivity.
Qed.

(** ** The rate solvers *)

Lemma months_pos_Q term : (1 <= term)%Z -> 0 < inject_Z (term * 12).
Proof. intro H. change 0 with (inject_Z 0). rewrite <- Zlt_Qlt. lia. Qed.

(** The payment at a zero rate. *)
Lemma calculateMonthlyPayment_zero P term :
  (1 <= term)%Z ->
  calculateMonthlyPayment P term 0 = Some (P / inject_Z (term * 12)).
Proof.
  intro H. unfold calculateMonthlyPayment.
  change (Qeq_bool (0 / 100 / 12) 0) with true. cbv iota.
  apply divide_nonzero, inject_Z_nonzero. lia.
Qed.

(** The total interest that the loop of [calculateTargetSavingsRate]
    computes at a rate is the payment at that rate times the number of
    months, less the principal. *)
Lemma inline_interest P term mid :
  0 <= mid -> (1 <= term)%Z ->
  exists m i,
    calculateMonthlyPayment P term mid = Some m /\
    (if Qeq_bool (mid / 100 / 12) 0 then Some 0
     else
       monthlyPayment <- levelPayment P (mid / 100 / 12) (term * 12) ;;
       Some (monthlyPayment * inject_Z (term * 12) - P)) = Some i /\
    i == m * inject_Z (term * 12) - P.
Proof.
  intros Hmid Hterm.
  destruct (calculateMonthlyPayment_value P term mid Hmid Hterm)
    as (m & E & _).
  exists m. unfold calculateMonthlyPayment in E |- *.
  destruct (Qeq_bool (mid / 100 / 12) 0).
  - exists 0. split; [exact E|]. split; [reflexivity|].
    rewrite divide_nonzero in E by (apply inject_Z_nonzero; lia).
    injection E as <-. field. apply inject_Z_nonzero. lia.
  - exists (m * inject_Z (term * 12) - P). split; [exact E|].
    rewrite E. split; reflexivity.
Qed.

(** Whatever the target, the loops stay inside their bracket. *)
Lemma suggestedRateLoop_range remaining : forall P term target low high,
  (1 <= term)%Z -> 0 <= low -> low <= high ->
  exists rho,
    suggestedRateLoop remaining P (term * 12) target low high
                      ((low + high) / 2) = Some rho /\
    low <= rho /\ rho <= high.
Proof.
  induction remaining as [|k IH]; intros P term target low high Hterm Hl Hlh;
    pose proof (half_scaled low high) as Hmid;
    set (mid := (low + high) / 2) in *.
  - exists mid. split; [reflexivity|]. split; lra.
  - cbn [suggestedRateLoop].
    destruct (Qltb (1 # 10000) (high - low));
      [|exists mid; split; [reflexivity|]; split; lra].
    assert (Hmid0 : 0 <= mid) by lra.
    destruct (calculateMonthlyPayment_value P term mid Hmid0 Hterm)
      as (calc & Ec & _).
    change (if Qeq_bool (mid / 100 / 12) 0
            then divide P (inject_Z (term * 12))
            else levelPayment P (mid / 100 / 12) (term * 12))
      with (calculateMonthlyPayment P term mid).
    rewrite Ec. cbn [bind].
    destruct (Qltb (Qabs (calc - target)) (1 # 100));
      [exists mid; split; [reflexivity|]; split; lra|].
    destruct (Qltb calc target).
    + destruct (IH P term target mid high Hterm Hmid0 ltac:(lra))
        as (rho & E & R1 & R2).
      exists rho. split; [exact E|]. split; lra.
    + destruct (IH P term target low mid Hterm Hl ltac:(lra))
        as (rho & E & R1 & R2).
      exists rho. split; [exact E|]. split; lra.
Qed.

Lemma targetSavingsLoop_range remaining : forall P term ti low high,
  (1 <= term)%Z -> 0 <= low -> low <= high ->
  exists rho,
    targetSavingsLoop remaining P (term * 12) ti low high = Some rho /\
    low <= rho /\ rho <= high.
Proof.
  induction remaining as [|k IH]; intros P term ti low high Hterm Hl Hlh;
    pose proof (half_scaled low high) as Hmid;
    set (mid := (low + high) / 2) in *.
  - exists mid. split; [reflexivity|]. split; lra.
  - cbn [targetSavingsLoop]. fold mid.
    destruct (Qltb (1 # 10000) (high - low));
      [|exists mid; split; [reflexivity|]; split; lra].
    assert (Hmid0 : 0 <= mid) by lra.
    destruct (inline_interest P term mid Hmid0 Hterm) as (m & i & _ & Ei & _).
    rewrite Ei. cbn [bind].
    destruct (Qltb (Qabs (i - ti)) 10);
      [exists mid; split; [reflexivity|]; split; lra|].
    destruct (Qltb i ti).
    + destruct (IH P term ti mid high Hterm Hmid0 ltac:(lra))
        as (rho & E & R1 & R2).
      exists rho. split; [exact E|]. split; lra.
    + destruct (IH P term ti low mid Hterm Hl ltac:(lra))
        as (rho & E & R1 & R2).
      exists rho. split; [exact E|]. split; lra.
Qed.

(** X11: for a whole term of at least one year, [calculateSuggestedRate]
    returns a rate between 0 and 20 whatever the principal and the target
    payment, and returns 0 when the target is not above the zero-rate
    payment [loanAmount / totalMonths]. *)
Theorem suggested_rate_in_range P term target :
  (1 <= term)%Z ->
  (exists rho, calculateSuggestedRate P term target = Some rho /\
               0 <= rho /\ rho <= 20) /\
  (target <= P / inject_Z (term * 12) ->
   calculateSuggestedRate P term target = Some 0).
Proof.
  intro Hterm. unfold calculateSuggestedRate.
  rewrite (divide_nonzero P (inject_Z (term * 12)))
    by (apply inject_Z_nonzero; lia).
  cbn [bind]. split.
  - destruct (Qle_bool target (P / inject_Z (term * 12))).
    + exists 0. split; [reflexivity|]. split; lra.
    + apply suggestedRateLoop_range; [exact Hterm | lra | lra].
  - intro H. apply Qle_bool_iff in H. now rewrite H.
Qed.

Lemma suggested_rate_in_range_witness :
  exists rho, calculateSuggestedRate 300000 30 5000 = Some rho /\
              0 <= rho /\ rho <= 20.
Proof.
  apply (suggested_rate_in_range 300000 30 5000). lia.
Defined.

(** X12: for a whole term of at least one year,
    [calculateTargetSavingsRate] returns a rate between 0 and 20 whatever
    the principal and the target cost, and returns 0 when the target total
    cost is below the loan amount. *)
Theorem target_savings_rate_in_range P term cost :
  (1 <= term)%Z ->
  (exists rho, calculateTargetSavingsRate P term cost = Some rho /\
               0 <= rho /\ rho <= 20) /\
  (cost < P -> calculateTargetSavingsRate P term cost = Some 0).
Proof.
  intro Hterm. unfold calculateTargetSavingsRate. split.
  - destruct (Qltb cost P).
    + exists 0. split; [reflexivity|]. split; lra.
    + apply targetSavingsLoop_range; [exact Hterm | lra | lra].
  - intro H. apply Qltb_true in H. now rewrite H.
Qed.

Lemma target_savings_rate_in_range_witness :
  exists rho, calculateTargetSavingsRate 300000 30 500000 = Some rho /\
              0 <= rho /\ rho <= 20.
Proof.
  apply (target_savings_rate_in_range 300000 30 500000). lia.
Defined.

(** The interest solver keeps the sought rate inside its bracket. *)
Lemma targetSavingsLoop_sound remaining :
  forall P term ti r mr low high,
  0 <= P -> (1 <= term)%Z ->
  calculateMonthlyPayment P term r = Some mr ->
  ti == mr * inject_Z (term * 12) - P ->
  0 <= low -> low <= r -> r <= high ->
  high - low <= (1 # 10000) * powN 2 remaining ->
  exists rho,
    targetSavingsLoop remaining P (term * 12) ti low high = Some rho /\
    (low <= rho /\ rho <= high) /\
    (Qabs (rho - r) <= 1 # 10000 \/
     exists m, calculateMonthlyPayment P term rho = Some m /\
               Qabs (m * inject_Z (term * 12) - P - ti) < 10).
Proof.
  induction remaining as [|k IH];
    intros P term ti r mr low high HP Hterm Er Hti Hlow Hlr Hrh Hw;
    pose proof (half_scaled low high) as Hmid;
    pose proof (months_pos_Q term Hterm) as HN;
    set (mid := (low + high) / 2) in *.
  - exists mid. split; [reflexivity|]. simpl in Hw.
    split; [split; lra|]. left. apply Qabs_small; lra.
  - cbn [targetSavingsLoop]. fold mid.
    destruct (Qltb (1 # 10000) (high - low)) eqn:G.
    2:{ apply Qltb_false in G. exists mid. split; [reflexivity|].
        split; [split; lra|]. left. apply Qabs_small; lra. }
    assert (Hmid0 : 0 <= mid) by lra.
    destruct (inline_interest P term mid Hmid0 Hterm)
      as (m & i & Em & Ei & Vi).
    rewrite Ei. cbn [bind].
    destruct (Qltb (Qabs (i - ti)) 10) eqn:T.
    { apply Qltb_true in T. exists mid. split; [reflexivity|].
      split; [split; lra|]. right. exists m. split; [exact Em|].
      now rewrite <- Vi. }
    apply Qltb_false in T. cbn [powN] in Hw.
    set (N := inject_Z (term * 12)) in *.
    destruct (Qltb i ti) eqn:C.
    + apply Qltb_true in C.
      assert (Hmr : mid <= r).
      { apply Qnot_lt_le. intro Hlt.
        pose proof (calculateMonthlyPayment_mono P term r mid mr m
                      HP Hterm ltac:(lra) ltac:(lra) Er Em) as Hmono.
        assert (mr * N <= m * N) by (apply Qmult_le_compat_r; lra).
        lra. }
      destruct (IH P term ti r mr mid high HP Hterm Er Hti Hmid0 Hmr Hrh)
        as (rho & E & (R1 & R2) & D); [lra|].
      exists rho. split; [exact E|]. split; [split; lra | exact D].
    + apply Qltb_false in C.
      assert (Hgap : 10 <= i - ti).
      { apply Qabs_not_lt; [|lra]. intro H. lra. }
      assert (Hrm : r <= mid).
      { apply Qnot_lt_le. intro Hlt.
        pose proof (calculateMonthlyPayment_mono P term mid r m mr
                      HP Hterm Hmid0 ltac:(lra) Em Er) as Hmono.
        assert (m * N <= mr * N) by (apply Qmult_le_compat_r; lra).
        lra. }
      destruct (IH P term ti r mr low mid HP Hterm Er Hti Hlow Hlr Hrm)
        as (rho & E & (R1 & R2) & D); [lra|].
      exists rho. split; [exact E|]. split; [split; lra | exact D].
Qed.

(** X13: round trip of the interest solver.  For a principal that is not
    negative, a whole term of at least one year and a rate r in [0, 20],
    [calculateTargetSavingsRate] fed with the total cost of the level
    payment at r (payment times months) returns a rate in [0, 20] that
    either is within 0.0001 of r or has a total interest within 10 of the
    total interest at r (exact arithmetic). *)
Theorem target_savings_round_trip P term r :
  0 <= P -> (1 <= term)%Z -> 0 <= r -> r <= 20 ->
  exists mr rho,
    calculateMonthlyPayment P term r = Some mr /\
    calculateTargetSavingsRate P term (mr * inject_Z (term * 12)) = Some rho /\
    (0 <= rho /\ rho <= 20) /\
    (Qabs (rho - r) <= 1 # 10000 \/
     exists m, calculateMonthlyPayment P term rho = Some m /\
               Qabs (m * inject_Z (term * 12) - P
                     - (mr * inject_Z (term * 12) - P)) < 10).
Proof.
  intros HP Hterm Hr0 Hr20.
  destruct (calculateMonthlyPayment_value P term r Hr0 Hterm)
    as (mr & Er & _).
  pose proof (months_pos_Q term Hterm) as HN.
  pose proof (calculateMonthlyPayment_mono P term 0 r _ mr HP Hterm
                ltac:(lra) Hr0 (calculateMonthlyPayment_zero P term Hterm) Er)
    as Hfloor.
  set (N := inject_Z (term * 12)) in *.
  assert (Hcost : P <= mr * N).
  { assert (P / N * N <= mr * N) by (apply Qmult_le_compat_r; lra).
    assert (P / N * N == P) by (field; lra). lra. }
  exists mr. unfold calculateTargetSavingsRate.
  assert (G : Qltb (mr * N) P = false) by (apply Qltb_false; exact Hcost).
  fold N. rewrite G.
  destruct (targetSavingsLoop_sound 100 P term (mr * N - P) r mr 0 20)
    as (rho & E & R & D); try assumption; try lra.
  - reflexivity.
  - vm_compute. discriminate.
  - exists rho. split; [exact Er|]. split; [exact E|].
    split; [exact R | exact D].
Qed.

Lemma target_savings_round_trip_witness :
  exists mr rho,
    calculateMonthlyPayment 300000 30 (65 # 10) = Some mr /\
    calculateTargetSavingsRate 300000 30 (mr * inject_Z (30 * 12)) = Some rho /\
    (0 <= rho /\ rho <= 20) /\
    (Qabs (rho - (65 # 10)) <= 1 # 10000 \/
     exists m, calculateMonthlyPayment 300000 30 rho = Some m /\
               Qabs (m * inject_Z (30 * 12) - 300000
                     - (mr * inject_Z (30 * 12) - 300000)) < 10).
Proof.
  apply (target_savings_round_trip 300000 30 (65 # 10)).
  - vm_compute. discriminate.
  - lia.
  - vm_compute. discriminate.
  - vm_compute. discriminate.
Defined.

(** ** The comparison engine, further *)

(** X14: when the new loan has closing costs and a lower monthly payment,
    the [breakEvenMonths] of [compareLoan] is the least whole number of
    months whose payment savings cover the closing costs: that many months
    of savings reach the closing costs and one month fewer does not. *)
Theorem breakEvenMonths_is_least original new today :
  0 < closingCosts new ->
  monthlyPayment new < monthlyPayment original ->
  let m := breakEvenMonths (compareLoan original new today) in
  let saving := monthlyPayment original - monthlyPayment new in
  (1 <= m)%Z /\
  closingCosts new <= inject_Z m * saving /\
  inject_Z (m - 1) * saving < closingCosts new.
Proof.
  intros Hc Hp m saving. unfold m.
  rewrite breakEvenMonths_compareLoan. unfold breakEvenSpec.
  destruct (Qlt_le_dec 0 (closingCosts new)) as [_|H]; [|lra].
  destruct (Qlt_le_dec (monthlyPayment new - monthlyPayment original) 0)
    as [_|H]; [|lra].
  assert (Hs : 0 < saving) by (unfold saving; lra).
  assert (Ha : Qabs (monthlyPayment new - monthlyPayment original) == saving).
  { rewrite Qabs_neg by lra. unfold saving. ring. }
  rewrite Ha.
  set (x := closingCosts new / saving).
  assert (Hx : x * saving == closingCosts new) by (unfold x; field; lra).
  pose proof (Qle_ceiling x) as Hup. pose proof (Qceiling_lt x) as Hlo.
  assert (Hxpos : 0 < x) by (unfold x; apply Qlt_shift_div_l; lra).
  split; [|split].
  - assert (H0 : (0 < Qceiling x)%Z).
    { rewrite Zlt_Qlt. change (inject_Z 0) with 0. lra. }
    lia.
  - rewrite <- Hx. apply Qmult_le_compat_r; lra.
  - rewrite <- Hx. apply Qmult_lt_compat_r; assumption.
Qed.

Lemma breakEvenMonths_is_least_witness :
  let m := breakEvenMonths (compareLoan currentMortgage refinanceOffer
                                        november2026) in
  let saving := monthlyPayment currentMortgage - monthlyPayment refinanceOffer in
  (1 <= m)%Z /\
  closingCosts refinanceOffer <= inject_Z m * saving /\
  inject_Z (m - 1) * saving < closingCosts refinanceOffer.
Proof.
  apply (breakEvenMonths_is_least currentMortgage refinanceOffer november2026).
  - reflexivity.
  - reflexivity.
Defined.

(** ** The older revision, further *)

Lemma old_run_ignores_oneTime fuel : forall e1 e2 s,
  Loop.monthlyRate e1 = Loop.monthlyRate e2 ->
  Loop.totalMonths e1 = Loop.totalMonths e2 ->
  Loop.principalAndInterest e1 = Loop.principalAndInterest e2 ->
  Loop.monthsElapsed e1 = Loop.monthsElapsed e2 ->
  Loop.extraPayment e1 = Loop.extraPayment e2 ->
  Old.run fuel e1 s = Old.run fuel e2 s.
Proof.
  induction fuel as [|n IH]; intros e1 e2 s Hr Htm Hpi Hme Hx; [reflexivity|].
  cbn [Old.run]. unfold Loop.guard, Old.body.
  rewrite Hr, Htm, Hpi, Hme, Hx.
  destruct (_ && _); [|reflexivity].
  destruct (Qle_bool _ _); [reflexivity|].
  now apply IH.
Qed.

(** X15: the older revision of [calculateLoan] never figures the one-time
    payment into the schedule: whatever [oneTimeExtraPayments] is, it
    returns the same [monthsToPayout], [yearsToPayout], [payoffDate],
    [totalInterestPaid] and [totalExtraPayment]. *)
Theorem old_revision_schedule_ignores_oneTime loan x today :
  let a := Old.calculateLoan (withOneTimePayment loan x) today in
  let b := Old.calculateLoan loan today in
  monthsToPayout a = monthsToPayout b /\
  yearsToPayout a = yearsToPayout b /\
  payoffDate a = payoffDate b /\
  totalInterestPaid a = totalInterestPaid b /\
  totalExtraPayment a = totalExtraPayment b.
Proof.
  intros a b. unfold a, b, Old.calculateLoan.
  change (cap (withOneTimePayment loan x)) with (cap loan).
  change (initial (withOneTimePayment loan x)) with (initial loan).
  change (loanAmount (withOneTimePayment loan x)) with (loanAmount loan).
  rewrite (old_run_ignores_oneTime (cap loan)
             (Old.envOf (withOneTimePayment loan x) today)
             (Old.envOf loan today)) by reflexivity.
  unfold Old.report. cbn. repeat split.
Qed.

(** ** The component *)

Lemma Qfloor_half k : Qfloor (inject_Z k + (1 # 2)) = k.
Proof.
  pose proof (Qfloor_le (inject_Z k + (1 # 2))) as H1.
  pose proof (Qlt_floor (inject_Z k + (1 # 2))) as H2.
  set (f := Qfloor (inject_Z k + (1 # 2))) in *.
  rewrite inject_Z_plus in H2. change (inject_Z 1) with 1 in H2.
  assert (f < k + 1)%Z.
  { rewrite Zlt_Qlt, inject_Z_plus. change (inject_Z 1) with 1. lra. }
  assert (k < f + 1)%Z.
  { rewrite Zlt_Qlt, inject_Z_plus. change (inject_Z 1) with 1. lra. }
  lia.
Qed.

Lemma Math_round_near y :
  - (1 # 2) < inject_Z (Math_round y) - y /\
  inject_Z (Math_round y) - y <= 1 # 2.
Proof.
  unfold Math_round.
  pose proof (Qfloor_le (y + (1 # 2))) as H1.
  pose proof (Qlt_floor (y + (1 # 2))) as H2.
  rewrite inject_Z_plus in H2. change (inject_Z 1) with 1 in H2.
  split; lra.
Qed.

Lemma formatYears_of_months m :
  formatYears (inject_Z m / 12)
  = (showZ (m / 12) ++ " years, " ++ showZ (m mod 12) ++ " months")%string.
Proof.
  unfold formatYears, Math_floor, Math_round.
  assert (Hf : Qfloor (inject_Z m / 12) = (m / 12)%Z).
  { unfold Qfloor, Qdiv, Qmult, Qinv, inject_Z. simpl.
    now rewrite Z.mul_1_r. }
  rewrite Hf.
  assert (Hm : (inject_Z m / 12 - inject_Z (m / 12)) * 12 + (1 # 2)
               == inject_Z (m mod 12) + (1 # 2)).
  { rewrite (Z.div_mod m 12) at 1 by lia.
    rewrite inject_Z_plus, inject_Z_mult. change (inject_Z 12) with 12.
    field. }
  rewrite Hm, Qfloor_half. reflexivity.
Qed.

(** X16: [formatYears] applied to the [yearsToPayout] that [calculateLoan]
    returns shows the [monthsToPayout] split into whole years and the
    months left over ([months / 12] years, [months mod 12] months). *)
Theorem formatYears_shows_monthsToPayout loan today :
  formatYears (yearsToPayout (calculateLoan loan today))
  = (showZ (monthsToPayout (calculateLoan loan today) / 12) ++ " years, "
     ++ showZ (monthsToPayout (calculateLoan loan today) mod 12)
     ++ " months")%string.
Proof.
  unfold calculateLoan, calculateLoanWith.
  destruct (early loan today && Qeq_bool _ 0); [reflexivity|].
  unfold report. cbn [yearsToPayout monthsToPayout].
  apply formatYears_of_months.
Qed.

Lemma formValid_spec form :
  formValid form = true ->
  0 <= loanAmount form /\ (1 <= loanLengthYears form)%Z /\
  0 <= interestRate form /\ 0 <= monthlyPayment form /\
  0 <= escrow form /\ 0 <= extraPayment form /\
  0 <= oneTimeExtraPayments form /\ 0 <= closingCosts form.
Proof.
  unfold formValid. intro H.
  repeat (apply andb_true_iff in H; destruct H as [H ?]).
  repeat match goal with
         | H : Qle_bool _ _ = true |- _ => apply Qle_bool_iff in H
         | H : (_ <=? _)%Z = true |- _ => apply Z.leb_le in H
         end.
  repeat split; assumption.
Qed.


Lemma calculateLoan_balance_nonneg loan today :
  0 <= loanAmount loan ->
  0 <= currentRemainingBalance (calculateLoan loan today).
Proof.
  intro Hla. unfold calculateLoan, calculateLoanWith.
  destruct (early loan today && Qeq_bool _ 0); [simpl; lra|].
  unfold report. cbn [currentRemainingBalance].
  destruct (elapsed loan today <=? 0)%Z; [exact Hla|].
  apply Revisions.run_currentRemainingBalance_nonneg. exact Hla.
Qed.

Lemma cents_scaled c : inject_Z c / 100 == inject_Z c * (1 # 100).
Proof. field. Qed.

(** X17: on a form with a positive loan amount, a whole term of at least
    one year and a rate that is not negative, [autoCalculatePayment] shows
    the level payment of [calculateMonthlyPayment] as principal and
    interest and sets the form's monthly payment to a whole number of
    cents within half a cent of that payment plus escrow; on a form whose
    loan amount is 0 it changes nothing. *)
Theorem autoCalculatePayment_to_the_cent form shown :
  0 < loanAmount form ->
  (1 <= loanLengthYears form)%Z ->
  0 <= interestRate form ->
  (exists principalAndInterest cents,
     calculateMonthlyPayment (loanAmount form) (loanLengthYears form)
                             (interestRate form) = Some principalAndInterest /\
     autoCalculatePayment form shown
     = Some (patchMonthlyPayment form (inject_Z cents / 100),
             principalAndInterest) /\
     Qabs (inject_Z cents / 100 - (principalAndInterest + escrow form))
     <= 1 # 200) /\
  autoCalculatePayment (patchLoanAmount form 0) shown
  = Some (patchLoanAmount form 0, shown).
Proof.
  intros HP Hy Hr. split; [|reflexivity].
  destruct (calculateMonthlyPayment_value (loanAmount form) _ _ Hr Hy)
    as (pi & E & _).
  exists pi, (Math_round ((pi + or0 (escrow form)) * 100)).
  split; [exact E|]. split.
  - unfold autoCalculatePayment.
    assert (T : truthy (loanAmount form) = true).
    { unfold truthy. apply negb_true_iff, Qeq_bool_false. lra. }
    assert (Z0 : (loanLengthYears form =? 0)%Z = false)
      by (apply Z.eqb_neq; lia).
    rewrite T, Z0, E. reflexivity.
  - destruct (Math_round_near ((pi + or0 (escrow form)) * 100)) as [H1 H2].
    pose proof (or0_eq (escrow form)) as He.
    rewrite cents_scaled. apply Qabs_small; lra.
Qed.

Lemma autoCalculatePayment_to_the_cent_witness :
  exists principalAndInterest cents,
    calculateMonthlyPayment 300000 30 (65 # 10) = Some principalAndInterest /\
    autoCalculatePayment currentMortgage 0
    = Some (patchMonthlyPayment currentMortgage (inject_Z cents / 100),
            principalAndInterest) /\
    Qabs (inject_Z cents / 100 - (principalAndInterest + 400)) <= 1 # 200.
Proof.
  apply (autoCalculatePayment_to_the_cent currentMortgage 0).
  - reflexivity.
  - vm_compute. discriminate.
  - vm_compute. discriminate.
Defined.



(** X19: on a valid original form, [updateNewLoanAmount] sets the new
    loan's amount to a whole number that is not negative and lies within
    one half of the original loan's [currentRemainingBalance], then
    recomputes the new loan's payment with [autoCalculatePayment]. *)
Theorem updateNewLoanAmount_rounds_balance originalForm newForm shown today :
  formValid originalForm = true ->
  exists k,
    (0 <= k)%Z /\
    updateNewLoanAmount originalForm newForm shown today
    = autoCalculatePayment (patchLoanAmount newForm (inject_Z k)) shown /\
    Qabs (inject_Z k
          - currentRemainingBalance (calculateLoan originalForm today))
    <= 1 # 2.
Proof.
  intro V. unfold updateNewLoanAmount. rewrite V.
  apply formValid_spec in V as (Hla&_).
  pose proof (calculateLoan_balance_nonneg originalForm today Hla) as Hb.
  set (crb := currentRemainingBalance (calculateLoan originalForm today)) in *.
  exists (Math_round crb). split; [|split; [reflexivity|]].
  - unfold Math_round. change 0%Z with (Qfloor 0).
    apply Qfloor_resp_le. lra.
  - destruct (Math_round_near crb). apply Qabs_small; lra.
Qed.

Lemma updateNewLoanAmount_rounds_balance_witness :
  exists k,
    (0 <= k)%Z /\
    updateNewLoanAmount currentMortgage refinanceOffer 0 november2026
    = autoCalculatePayment (patchLoanAmount refinanceOffer (inject_Z k)) 0 /\
    Qabs (inject_Z k
          - currentRemainingBalance (calculateLoan currentMortgage november2026))
    <= 1 # 2.
Proof.
  apply (updateNewLoanAmount_rounds_balance currentMortgage refinanceOffer 0
           november2026).
  reflexivity.
Defined.

(** ** The standard schedule of a loan that has started *)

Module ScheduleStarted.
Import Loop.


Section OnSchedule.

(** A loan with no extra and no one-time payment, paid at the level
    payment [M] of its [n] months, seen [a] months after its start. *)
Variable e : env.
Variables P M : Q.
Variables n a : nat.
Hypothesis principal_pos : 0 < P.
Hypothesis months_pos : (0 < n)%nat.
Hypothesis rate_nonneg : 0 <= monthlyRate e.
Hypothesis months_n : totalMonths e = Z.of_nat n.
Hypothesis elapsed_a : monthsElapsed e = Z.of_nat a.
Hypothesis no_extra : extraPayment e == 0.
Hypothesis no_oneTime : Qltb 0 (oneTimeExtraPayments e) = false.
Hypothesis level : principalAndInterest e == M.
Hypothesis level_value :
  M * geomN (1 + monthlyRate e) n == P * powN (1 + monthlyRate e) n.

Let x := 1 + monthlyRate e.
Let B := scheduledBalance P x M.



End OnSchedule.

End ScheduleStarted.



(** ** The payoff date *)

Lemma daysInMonth_ge_28 y m : (28 <= daysInMonth y m)%Z.
Proof.
  unfold daysInMonth.
  destruct m as [|p|p]; try lia.
  do 4 (try (destruct p as [p|p|])); try lia.
  destruct (isLeap y); lia.
Qed.

(** [setMonth] moves a date whose day every month has by whole calendar
    months. *)
Lemma monthDiff_setMonthPlus d n :
  (day d <= 28)%Z ->
  monthDiff (setMonthPlus d n) d = n.
Proof.
  intro Hd. unfold setMonthPlus.
  pose proof (daysInMonth_ge_28 (year d + (month d + n) / 12)
                ((month d + n) mod 12)) as H28.
  destruct (Z.leb_spec (day d)
              (daysInMonth (year d + (month d + n) / 12)
                           ((month d + n) mod 12))) as [_|C]; [|lia].
  unfold monthDiff. cbn [year month].
  pose proof (Z.div_mod (month d + n) 12 ltac:(lia)). lia.
Qed.

Lemma run_monthCount_ge fuel : forall e s,
  (Loop.monthCount s <= Loop.monthCount (Loop.run fuel e s))%Z.
Proof.
  induction fuel as [|n IH]; intros e s; [simpl; lia|].
  cbn [Loop.run]. destruct (Loop.guard e s); [|lia].
  pose proof (LoopFacts.body_monthCount e s) as Hm.
  destruct (Loop.body e s) as [s'|s']; simpl in Hm; [lia|].
  specialize (IH e s'). lia.
Qed.

(** X21: the payoff date of a loan that starts on a day every month has
    (the 28th at the latest) and not after today lies exactly
    [monthsToPayout] calendar months after today, or is not after today's
    month when [monthsToPayout] is 0 (dates as calendar triples, the time
    zone left aside). *)
Theorem payoffDate_is_monthsToPayout_from_today loan today :
  (day (startDate loan) <= 28)%Z ->
  (0 <= monthDiff today (startDate loan))%Z ->
  Math_maxZ 0 (monthDiff (payoffDate (calculateLoan loan today)) today)
  = monthsToPayout (calculateLoan loan today).
Proof.
  intros Hd Ht. unfold calculateLoan, calculateLoanWith.
  assert (He : elapsed loan today = monthDiff today (startDate loan))
    by (unfold elapsed, Math_maxZ; lia).
  destruct (early loan today && Qeq_bool _ 0) eqn:E.
  - apply andb_true_iff in E. destruct E as [E _].
    unfold early in E. apply andb_true_iff in E. destruct E as [E _].
    apply Z.eqb_eq in E. cbn [payoffDate monthsToPayout].
    rewrite He in E. unfold Math_maxZ, monthDiff in *. lia.
  - unfold report. cbn [payoffDate monthsToPayout].
    set (s := Loop.run _ _ _).
    pose proof (monthDiff_setMonthPlus (startDate loan) (Loop.monthCount s) Hd)
      as Hp.
    assert (Hs : (0 <= Loop.monthCount s)%Z).
    { pose proof (run_monthCount_ge (cap loan) (envOf loan today)
                    (initial loan (openingBalance loan today))) as H.
      simpl in H. exact H. }
    rewrite He. unfold Math_maxZ, monthDiff in *.
    destruct (0 <? _)%Z eqn:E0;
      [apply Z.ltb_lt in E0 | apply Z.ltb_ge in E0]; lia.
Qed.

Lemma payoffDate_is_monthsToPayout_from_today_witness :
  Math_maxZ 0 (monthDiff (payoffDate (calculateLoan startedInMay november2026))
                         november2026)
  = monthsToPayout (calculateLoan startedInMay november2026).
Proof.
  apply (payoffDate_is_monthsToPayout_from_today startedInMay november2026).
  - vm_compute. discriminate.
  - vm_compute. discriminate.
Defined.
